(** * A shallow embedding of [main.py]: cross-lingual CBOW with a
      distribution-alignment loss

    The development follows the source file top to bottom:

    - [Corpus]: the vocabulary ([w2i], a [defaultdict] whose factory is
      [len(self.w2i)]), the frequency table and the per-language id ranges;
    - [generate_batch]: the sliding-window batch generator;
    - [CBOW]: the two scoring paths [forward] and [forward_neg];
    - [NegativeSamplingLoss]: the sampling prior and the negative draws;
    - [DistributionLoss]: the running mean / covariance estimator;
    - [Main]: [main], from the seeding to the file it writes.

    Numbers.  Token ids, counts and sizes are [nat]; the comparison of a
    line length with [2 * window_size - 1] is done in [Z] as Python does it.
    Tensors of floats are lists (vectors) and lists of lists (matrices) of
    real numbers: [R] idealises float32, so every statement about tensor
    values is a statement about exact arithmetic. *)

From Stdlib Require Import Reals Lra ZArith Ascii.
From stdpp Require Import base list gmap strings sorting.

(** * Python's [sorted(items, key=lambda t: t[1])]

    A stable sort on the second component: equal keys keep the order they
    have in the input. *)

Fixpoint insert_by_snd {A} (x : A * nat) (l : list (A * nat)) : list (A * nat) :=
  match l with
  | [] => [x]
  | y :: l' => if x.2 <=? y.2 then x :: y :: l' else y :: insert_by_snd x l'
  end.

Definition sorted_by_snd {A} (l : list (A * nat)) : list (A * nat) :=
  foldr insert_by_snd [] l.

(** * Corpus *)

Module Corpus.

(** [str.isspace] on the ASCII range: space, [\t \n \v \f \r] and the four
    separators [\x1c .. \x1f]. *)
Definition is_space (a : ascii) : bool :=
  let n := nat_of_ascii a in
  (n =? 32) || ((9 <=? n) && (n <=? 13)) || ((28 <=? n) && (n <=? 31)).

(** [line.strip().split()]: the maximal runs of non-blank characters.
    [cur] is the word being read, if any. *)
Fixpoint split_from (cur : option string) (s : string) : list string :=
  match s with
  | EmptyString => match cur with Some w => [w] | None => [] end
  | String a s' =>
      if is_space a then
        match cur with
        | Some w => w :: split_from None s'
        | None => split_from None s'
        end
      else
        split_from (Some (default EmptyString cur +:+ String a EmptyString)) s'
  end.

Definition split (line : string) : list string := split_from None line.

(** The reader's state.  [freq] is a dict whose iteration order is read
    later ([sorted] is stable), so it is kept as an association list in
    insertion order, one entry per key. *)
Record t := mk {
  window_size : nat;
  w2i : gmap string nat;
  freq : list (nat * nat);
  UNK : nat;
  BOS : nat;
  EOS : nat;
  vocab_range : gmap string (nat * nat)
}.

(** [d[key]] on [defaultdict(lambda: len(d))]: a missing key is given the
    current size of the dict as its value, and stored. *)
Definition w2i_get (d : gmap string nat) (key : string) : nat * gmap string nat :=
  match d !! key with
  | Some i => (i, d)
  | None => (size d, <[key := size d]> d)
  end.

(** [[d[lang + ':' + w] for w in words]], left to right. *)
Fixpoint w2i_get_all (d : gmap string nat) (lang : string) (words : list string)
  : list nat * gmap string nat :=
  match words with
  | [] => ([], d)
  | w :: ws =>
      let '(i, d1) := w2i_get d (lang +:+ ":" +:+ w) in
      let '(ids, d2) := w2i_get_all d1 lang ws in
      (i :: ids, d2)
  end.

(** [freq[idx] = v] and [freq[idx] += 1] on the insertion-ordered dict. *)
Fixpoint freq_set (f : list (nat * nat)) (idx v : nat) : list (nat * nat) :=
  match f with
  | [] => [(idx, v)]
  | (k, c) :: f' => if k =? idx then (k, v) :: f' else (k, c) :: freq_set f' idx v
  end.

Fixpoint freq_incr (f : list (nat * nat)) (idx : nat) : list (nat * nat) :=
  match f with
  | [] => [(idx, 1)]
  | (k, c) :: f' => if k =? idx then (k, S c) :: f' else (k, c) :: freq_incr f' idx
  end.

(** [Corpus.__init__]. *)
Definition init (window : nat) : t :=
  let '(unk, d0) := w2i_get ∅ "<unk>" in
  let '(bos, d1) := w2i_get d0 "<s>" in
  let '(eos, d2) := w2i_get d1 "</s>" in
  {| window_size := window;
     w2i := d2;
     freq := freq_set (freq_set (freq_set [] unk 0) bos 0) eos 0;
     UNK := unk; BOS := bos; EOS := eos;
     vocab_range := ∅ |}.

Definition set_w2i (c : t) (d : gmap string nat) : t :=
  mk (window_size c) d (freq c) (UNK c) (BOS c) (EOS c) (vocab_range c).
Definition set_freq (c : t) (f : list (nat * nat)) : t :=
  mk (window_size c) (w2i c) f (UNK c) (BOS c) (EOS c) (vocab_range c).
Definition set_vocab_range (c : t) (r : gmap string (nat * nat)) : t :=
  mk (window_size c) (w2i c) (freq c) (UNK c) (BOS c) (EOS c) r.

(** One turn of the [for line in f] loop of [read]: [None] is the
    [continue] of a short line, [Some sent] the sentence yielded. *)
Definition read_line (c : t) (lang : string) (count : bool) (line : string)
  : option (list nat) * t :=
  let words := split line in
  if (Z.of_nat (length words) <? 2 * Z.of_nat (window_size c) - 1)%Z then
    (None, c)
  else
    let '(indices, d) := w2i_get_all (w2i c) lang words in
    let c1 := set_w2i c d in
    let c2 := if count then set_freq c1 (foldl freq_incr (freq c1) indices) else c1 in
    (Some ([BOS c] ++ indices ++ [EOS c]), c2).

Fixpoint read_lines (c : t) (lang : string) (count : bool) (lines : list string)
  : list (list nat) * t :=
  match lines with
  | [] => ([], c)
  | line :: rest =>
      let '(o, c1) := read_line c lang count line in
      let '(sents, c2) := read_lines c1 lang count rest in
      (match o with Some s => s :: sents | None => sents end, c2)
  end.

(** [read], consumed to the end (as [list(corpus.read(...))] does): the
    sentences yielded and the reader afterwards, the range of [lang]
    recorded. *)
Definition read (c : t) (lines : list string) (lang : string) (count : bool)
  : list (list nat) * t :=
  let vocab_start := size (w2i c) in
  let '(sents, c1) := read_lines c lang count lines in
  let vocab_end := size (w2i c1) in
  (sents, set_vocab_range c1 (<[lang := (vocab_start, vocab_end)]> (vocab_range c1))).

Definition get_vocabsize (c : t) : nat := size (w2i c).

(** [set_i2w]: the words in the order of their ids. *)
Definition set_i2w (c : t) : list string :=
  (sorted_by_snd (map_to_list (w2i c))).*1.

End Corpus.

(** * generate_batch *)

(** [sent[a:b]] for [0 <= a]. *)
Definition slice {A} (l : list A) (a b : nat) : list A := take (b - a) (drop a l).

(** [range(a, b)]. *)
Definition range (a b : nat) : list nat := seq a (b - a).

(** A batch as it is yielded: the tensor of contexts and the tensor of
    targets. *)
Definition batch : Type := list (list nat) * list nat.

Definition pairs_of (b : batch) : list (list nat * nat) := zip b.1 b.2.

(** The local variables [contexts, targets, count] of the generator. *)
Record accum := mk_accum {
  contexts : list (list nat);
  targets : list nat;
  count : nat
}.

Definition accum_empty : accum := mk_accum [] [] 0.

(** The body of the inner loop, at position [pos] of [sent]; [out] collects
    what has been yielded so far.  Inside [range(window, l - window)] the
    position is below [len(sent)], so [sent[pos]] never raises. *)
Definition visit (window batch_size : nat) (sent : list nat)
    (st : accum * list batch) (pos : nat) : accum * list batch :=
  let '(a, out) := st in
  let context := slice sent (pos - window) pos in
  let context := context ++ slice sent (pos + 1) (pos + window + 1) in
  let contexts := contexts a ++ [context] in
  let targets := targets a ++ [nth pos sent 0] in
  let count := count a + 1 in
  if batch_size <=? count then (accum_empty, out ++ [(contexts, targets)])
  else (mk_accum contexts targets count, out).

Definition scan_sentence (window batch_size : nat)
    (st : accum * list batch) (sent : list nat) : accum * list batch :=
  let l := length sent in
  foldl (visit window batch_size sent) st (range window (l - window)).

(** The generator run to exhaustion: the accumulator it ends with (never
    yielded) and the batches it yielded, in order. *)
Definition generate_batch_run (sents : list (list nat)) (window batch_size : nat)
  : accum * list batch :=
  foldl (scan_sentence window batch_size) (accum_empty, []) sents.

Definition generate_batch (sents : list (list nat)) (window batch_size : nat)
  : list batch :=
  (generate_batch_run sents window batch_size).2.

(** Every pair the generator has formed so far, in order: those of the
    batches already yielded, then those still in the accumulator. *)
Definition formed (st : accum * list batch) : list (list nat * nat) :=
  concat (map pairs_of st.2) ++ zip (contexts st.1) (targets st.1).

(** The pair appended at position [pos], as the code builds it. *)
Definition code_pair (window : nat) (sent : list nat) (pos : nat) : list nat * nat :=
  (slice sent (pos - window) pos ++ slice sent (pos + 1) (pos + window + 1),
   nth pos sent 0).

(** The accumulator is well formed: its two lists have [count] entries,
    fewer than a batch; the batches yielded are full. *)
Definition accum_ok (batch_size : nat) (st : accum * list batch) : Prop :=
  length (contexts st.1) = count st.1 ∧
  length (targets st.1) = count st.1 ∧
  (1 ≤ batch_size → count st.1 < batch_size) ∧
  Forall (λ b : batch, length b.1 = length b.2 ∧
                       (1 ≤ batch_size → length b.2 = batch_size)) st.2.

(** The pairs of the spec: for a centre [p], the ids at the positions
    [p - window, p) and [p + 1, p + window + 1), and the id at [p]. *)
Definition spec_pair (window : nat) (sent : list nat) (p : nat) : list nat * nat :=
  (map (λ i, nth i sent 0) (seq (p - window) window ++ seq (p + 1) window),
   nth p sent 0).

(** ... one for every centre of [window, L - window), in order. *)
Definition spec_pairs (window : nat) (sent : list nat) : list (list nat * nat) :=
  map (spec_pair window sent) (seq window (length sent - 2 * window)).

(** * Tensors *)

Module Tensor.
Open Scope R_scope.

Definition vec : Type := list R.
Definition mat : Type := list (list R).

Definition zeros (n : nat) : vec := replicate n 0.
Definition zeros2 (n k : nat) : mat := replicate n (zeros k).

Definition vadd (a b : vec) : vec := zip_with Rplus a b.
Definition vsub (a b : vec) : vec := zip_with Rminus a b.
Definition vscale (k : R) (a : vec) : vec := map (Rmult k) a.
Definition vdiv (a : vec) (k : R) : vec := map (λ x, x / k) a.

Definition madd (a b : mat) : mat := zip_with vadd a b.
Definition msub (a b : mat) : mat := zip_with vsub a b.
Definition mscale (k : R) (a : mat) : mat := map (vscale k) a.
Definition mdiv (a : mat) (k : R) : mat := map (λ r, vdiv r k) a.

(** [t.sum()] on a vector and on a matrix. *)
Definition vsum (a : vec) : R := foldr Rplus 0 a.
Definition msum (a : mat) : R := vsum (map vsum a).

(** [t.pow(2)]. *)
Definition vsq (a : vec) : vec := map (λ x, x * x) a.
Definition msq (a : mat) : mat := map vsq a.

(** [t.sum(dim=0)] of [n] rows of width [d]. *)
Definition sum_rows (d : nat) (rows : list vec) : vec := foldr vadd (zeros d) rows.

(** [torch.mul(a, b).sum()] of two vectors. *)
Definition dot (a b : vec) : R := vsum (zip_with Rmult a b).

(** Column [j] of a matrix, and the product of an [n x d] by a [d x p]
    matrix. *)
Definition col (j : nat) (b : mat) : vec := map (λ r, nth j r 0) b.
Definition matmul (p : nat) (a b : mat) : mat :=
  map (λ row, map (λ j, dot row (col j b)) (seq 0 p)) a.

(** [d.mul(d.t())] for a column [d] of shape [(n, 1)]: by broadcasting,
    the [n x n] matrix of the products [d_i * d_j]. *)
Definition outer (d : vec) : mat := map (λ x, map (λ y, x * y) d) d.

Definition sigmoid (x : R) : R := 1 / (1 + exp (- x)).

(** [x ** 0.75] on a non-negative float. *)
Definition pow075 (x : R) : R :=
  if Rle_dec x 0 then 0 else Rpower x (3 / 4).

End Tensor.

(** * CBOW *)

Module CBOW.
Import Tensor.

(** The two [nn.Embedding] tables, [vocab_size] rows of width [dim_emb]. *)
Record t := mk {
  dim_emb : nat;
  embeddings_x : list vec;
  embeddings_y : list vec
}.

(** [nn.Embedding.__call__] on a vector of ids; an id outside the table
    raises ([None]). *)
Definition embedding (W : list vec) (ids : list nat) : option (list vec) :=
  mapM (λ i, W !! i) ids.

(** [self.embeddings_x(X).mean(dim=1)], one row of [X] at a time. *)
Definition context_row (model : t) (row : list nat) : option vec :=
  rows ← embedding (embeddings_x model) row;
  Some (vdiv (sum_rows (dim_emb model) rows) (INR (length row))).

Definition context_mean (model : t) (X : list (list nat)) : option (list vec) :=
  mapM (context_row model) X.

(** Broadcasting of the batch dimension in [torch.mul]: equal sizes, or
    one of them 1. *)
Definition broadcast {A B} (a : list A) (b : list B) : option (list (A * B)) :=
  if decide (length a = length b) then Some (zip a b)
  else match a, b with
       | [x], _ => Some (map (λ y, (x, y)) b)
       | _, [y] => Some (map (λ x, (x, y)) a)
       | _, _ => None
       end.

Definition forward (model : t) (X : list (list nat)) (y : list nat)
  : option (list R) :=
  context ← context_mean model X;
  target ← embedding (embeddings_y model) y;
  tc ← broadcast target context;
  Some (map (λ p, vsum (zip_with Rmult p.1 p.2)) tc).

(** [context.unsqueeze(dim=2)]: every entry becomes a row of one column. *)
Definition unsqueeze2 (context : list vec) : list mat :=
  map (map (λ x, [x])) context.

(** [torch.bmm]: the batch sizes must agree. *)
Definition bmm (p : nat) (a b : list mat) : option (list mat) :=
  if decide (length a = length b) then Some (zip_with (matmul p) a b) else None.

(** [t.squeeze(dim=2)] where the last dimension has size 1. *)
Definition squeeze2 (a : list mat) : list (list R) :=
  map (map (λ r, nth 0 r 0)) a.

Definition forward_neg (model : t) (X : list (list nat)) (y : list (list nat))
  : option (list (list R)) :=
  context ← context_mean model X;
  let context := unsqueeze2 context in
  target ← mapM (embedding (embeddings_y model)) y;
  out ← bmm 1 target context;
  Some (squeeze2 out).

Definition get_embeddings (model : t) : list vec := embeddings_x model.

End CBOW.

(** * NegativeSamplingLoss *)

Module NegativeSamplingLoss.
Import Tensor.
Open Scope R_scope.

Record t := mk {
  p : vec;
  p_src : vec;
  p_trg : vec;
  offset_trg : nat;
  sample_size : nat
}.

(** [calc_prior].  [freq] is the frequency dict in insertion order and
    [ranges] the [vocab_range] of the corpus; a language without a range
    is a [KeyError] ([None]). *)
Definition calc_prior (freq : list (nat * nat)) (ranges : gmap string (nat * nat))
    (src trg : string) : option (vec * vec * vec * nat) :=
  let p := map (λ iv, INR iv.2) (sorted_by_snd freq) in
  let p := map pow075 p in
  range_src ← ranges !! src;
  let p_src := take range_src.2 p in
  range_trg ← ranges !! trg;
  let p_trg := drop range_trg.1 p in
  let p_src := vdiv p_src (vsum p_src) in
  let p_trg := vdiv p_trg (vsum p_trg) in
  Some (p, p_src, p_trg, range_trg.1).

(** [__init__]. *)
Definition init (freq : list (nat * nat)) (ranges : gmap string (nat * nat))
    (src trg : string) (sample_size : nat) : option t :=
  '(p, p_src, p_trg, off) ← calc_prior freq ranges src trg;
  Some (mk p p_src p_trg off sample_size).

(** [torch.multinomial(w, n, replacement=True)]: [n] indices into [w],
    each one an index of positive weight.  Which ones is the generator's
    business, so this is a relation. *)
Definition multinomial (w : vec) (n : nat) (out : list nat) : Prop :=
  length out = n ∧ Forall (λ i, ∃ x, w !! i = Some x ∧ 0 < x) out.

(** [t.view((B, -1))] of a vector: [B] rows. *)
Fixpoint chunks {A} (k n : nat) (l : list A) : list (list A) :=
  match n with
  | O => []
  | S n' => take k l :: chunks k n' (drop k l)
  end.
Definition view_rows {A} (B : nat) (l : list A) : list (list A) :=
  chunks (length l / B)%nat B l.

(** The two draws of [__call__] for a batch of [B] examples. *)
Definition draws (self : t) (B : nat) (src : bool) (mono cross : list nat) : Prop :=
  let '(p_mono, p_cross) :=
    if src then (p_src self, p_trg self) else (p_trg self, p_src self) in
  let n_neg := (B * sample_size self)%nat in
  multinomial p_mono n_neg mono ∧ multinomial p_cross n_neg cross.

(** [torch.cat([mono.view((B, -1)), cross.view((B, -1))], dim=1)]. *)
Definition targets_neg (B : nat) (mono cross : list nat) : list (list nat) :=
  zip_with app (view_rows B mono) (view_rows B cross).

(** [__call__], given what the two draws returned. *)
Definition call (self : t) (model : CBOW.t) (contexts : list (list nat))
    (targets : list nat) (mono cross : list nat) : option R :=
  let B := length contexts in
  pos ← CBOW.forward model contexts targets;
  let loss := vsum (map (λ s, ln (sigmoid s)) pos) in
  neg ← CBOW.forward_neg model contexts (targets_neg B mono cross);
  let loss := loss + msum (map (map (λ s, ln (sigmoid (- s)))) neg) in
  Some (loss / INR B).

(** The prior in the words of the spec: the weight of id [i] in the slice
    [lo, hi) is [freq(i) ** 0.75] over the sum of these powers on the
    slice.  [freq_of] is [freq[i]]. *)
Fixpoint freq_of (freq : list (nat * nat)) (i : nat) : nat :=
  match freq with
  | [] => 0%nat
  | (k, c) :: freq' => if (k =? i)%nat then c else freq_of freq' i
  end.
Definition spec_prior (freq : list (nat * nat)) (lo hi i : nat) : R :=
  pow075 (INR (freq_of freq i))
  / vsum (map (λ j, pow075 (INR (freq_of freq j))) (seq lo (hi - lo))).

End NegativeSamplingLoss.



(** * DistributionLoss *)

Module DistributionLoss.
Import Tensor.
Open Scope R_scope.

(** The two keys ['src'] and ['trg'] of the four dicts. *)
Inductive lang := src | trg.

#[global] Instance lang_eq_dec : EqDecision lang.
Proof. solve_decision. Defined.

(** [d[l] = x] on a dict with the two keys. *)
Definition upd {A} (f : lang → A) (l : lang) (x : A) : lang → A :=
  λ l', match l, l' with
        | src, src | trg, trg => x
        | _, _ => f l'
        end.

Record t := mk {
  m : lang → vec;
  v : lang → mat;
  scount : lang → Z;
  updated : lang → bool;
  lambda_m : R;
  lambda_v : R
}.

(** [__init__]. *)
Definition init (dim_emb : nat) (lambda_m lambda_v : R) : t :=
  {| m := λ _, zeros dim_emb;
     v := λ _, zeros2 dim_emb dim_emb;
     scount := λ _, 0%Z;
     updated := λ _, false;
     lambda_m := lambda_m;
     lambda_v := lambda_v |}.

(** The tensor objects a call works on.  A Python name holds a reference;
    [new_m = vec] makes two names for one object, and [+=] on a tensor
    changes the object in place. *)
Definition store : Type := list vec.
Definition ref : Type := nat.

Definition new (x : vec) (h : store) : ref * store := (length h, h ++ [x]).
Definition get (r : ref) (h : store) : vec := default [] (h !! r).
Definition iadd (r : ref) (x : vec) (h : store) : store :=
  <[r := vadd (get r h) x]> h.

(** [update_stats] on the window [x] of one example (the batch of one that
    [x.squeeze(dim=0)] turns into a vector of [N] ids).  The tests
    [is not None] always succeed: the dicts only ever hold tensors. *)
Definition update_stats (self : t) (model : CBOW.t) (x : list nat) (l : lang)
  : option t :=
  let N := Z.of_nat (length x) in
  rows ← CBOW.embedding (CBOW.embeddings_x model) x;
  let '(vec, h) := new (sum_rows (CBOW.dim_emb model) rows) [] in
  (* Mean *)
  let new_m := vec in
  let h := iadd new_m (vscale (IZR (scount self l)) (m self l)) h in
  let m_l := vdiv (get new_m h) (IZR (scount self l + N)) in
  (* Covariance *)
  let diff := vsub m_l (get vec h) in
  let new_v := outer diff in
  let new_v := madd new_v (mscale (IZR (scount self l)) (v self l)) in
  let v_l := mdiv new_v (IZR (scount self l + N)) in
  Some {| m := upd (m self) l m_l;
          v := upd (v self) l v_l;
          scount := upd (scount self) l (Z.min 100000 (scount self l + N));
          updated := upd (updated self) l true;
          lambda_m := lambda_m self;
          lambda_v := lambda_v self |}.

(** The value returned once both languages have statistics. *)
Definition loss (self : t) : R :=
  lambda_m self * vsum (vsq (vsub (m self src) (m self trg))) / 2
  + lambda_v self * msum (msq (msub (v self src) (v self trg))) / 2.

(** [__call__]: the outer [None] is an exception, the inner one the
    Python value [None]. *)
Definition call (self : t) (model : CBOW.t) (x : list nat) (is_src : bool)
  : option (t * option R) :=
  self' ← update_stats self model x (if is_src then src else trg);
  if negb (updated self' src && updated self' trg) then Some (self', None)
  else Some (self', Some (loss self')).


(** The covariance update in the words of the spec: the outer product of
    the deviation between the updated mean and the new aggregate vector
    [agg], weighted with the prior covariance [C] by the prior count [c]
    and divided by the new total count. *)
Definition spec_mean (agg : vec) (c N : Z) (mean : vec) : vec :=
  vdiv (vadd agg (vscale (IZR c) mean)) (IZR (c + N)).
Definition spec_cov (agg : vec) (c N : Z) (mean : vec) (C : mat) : mat :=
  let d := vsub (spec_mean agg c N mean) agg in
  mdiv (madd (outer d) (mscale (IZR c) C)) (IZR (c + N)).

(** A run of calls from a given state, each with the model as it is at
    that moment: the state reached and what each call returned. *)
Fixpoint calls (self : t) (cs : list (CBOW.t * list nat * bool))
  : option (t * list (option R)) :=
  match cs with
  | [] => Some (self, [])
  | (model, x, is_src) :: cs' =>
      '(self1, r) ← call self model x is_src;
      '(self2, rs) ← calls self1 cs';
      Some (self2, r :: rs)
  end.

End DistributionLoss.

(** * main *)

Module Main.
Import Tensor.
Open Scope R_scope.

Definition DIM_EMB : nat := 50.

(** The pseudo-random generators of the process, each known by its
    state: numpy's global one, torch's default CPU one and torch's CUDA
    one.  The state they have when [main] starts is the business of the
    interpreter and of the two libraries. *)
Record generators := mk_generators {
  np_random : N;
  torch_cpu : N;
  torch_cuda : N
}.

(** The parsed command line, with the two corpus files as their lines and
    [lang:path] already split. *)
Record args := mk_args {
  lang_src : string;
  lines_src : list string;
  lang_trg : string;
  lines_trg : list string;
  window_size : nat;
  lr : R;
  batch_size : nat;
  n_iters : Z;
  random_seed : Z;
  cuda : bool
}.

(** What [save_embeddings] writes: the shape of the table, then one word
    and one row per line. *)
Definition save_embeddings (embs : list vec) (i2w : list string)
  : (nat * nat) * list (string * vec) :=
  ((length embs, length (default [] (head embs))), zip i2w embs).

(** Everything the training loop reads or changes. *)
Record run := mk_run {
  gens : generators;
  model : CBOW.t;
  loss_func : NegativeSamplingLoss.t;
  loss_func_dist : DistributionLoss.t;
  sents_src : list (list nat);
  sents_trg : list (list nat)
}.

Section Libraries.
(** What the libraries provide: the state of a generator after it is
    seeded, the table [nn.Embedding] fills from torch's CPU generator
    (with the state the generator is left in), and one turn of the
    training loop of [main] (shuffling, sampling, back-propagation and
    the optimizer step). *)
Variable np_seed : Z → N.
Variable cuda_manual_seed : Z → N.
Variable normal_ : N → nat → nat → list vec * N.
Variable epoch : args → run → run.
Variable cuda_is_available : bool.

(** The seeding at the head of [main]. *)
Definition seed (a : args) (g : generators) : generators :=
  let g :=
    if cuda_is_available && cuda a
    then mk_generators (np_random g) (torch_cpu g) (cuda_manual_seed (random_seed a))
    else g in
  mk_generators (np_seed (random_seed a)) (torch_cpu g) (torch_cuda g).

(** [CBOW.__init__]: the two tables, [embeddings_x] first. *)
Definition CBOW_init (vocab_size dim_emb : nat) (g : generators)
  : CBOW.t * generators :=
  let '(Wx, s1) := normal_ (torch_cpu g) vocab_size dim_emb in
  let '(Wy, s2) := normal_ s1 vocab_size dim_emb in
  (CBOW.mk dim_emb Wx Wy, mk_generators (np_random g) s2 (torch_cuda g)).

(** [main], from the generators as the process has them at start-up to
    what is written to the output file. *)
Definition main (a : args) (g : generators)
  : option ((nat * nat) * list (string * vec)) :=
  let g := seed a g in
  let corpus := Corpus.init (window_size a) in
  let '(s_src, corpus) := Corpus.read corpus (lines_src a) (lang_src a) true in
  let '(s_trg, corpus) := Corpus.read corpus (lines_trg a) (lang_trg a) true in
  let i2w := Corpus.set_i2w corpus in
  let '(model0, g) := CBOW_init (Corpus.get_vocabsize corpus) DIM_EMB g in
  loss_func0 ← NegativeSamplingLoss.init (Corpus.freq corpus)
                 (Corpus.vocab_range corpus) (lang_src a) (lang_trg a) 5;
  let loss_func_dist0 := DistributionLoss.init DIM_EMB (2 / 10) (1 / 10) in
  let r := Nat.iter (Z.to_nat (n_iters a)) (epoch a)
             (mk_run g model0 loss_func0 loss_func_dist0 s_src s_trg) in
  let embs := CBOW.get_embeddings (model r) in
  Some (save_embeddings embs i2w).

End Libraries.

(** A small corpus: one English line and one Italian line, window 1. *)
Definition corpus_example : Corpus.t :=
  let c := (Corpus.read (Corpus.init 1) ["a a b"] "en" true).2 in
  (Corpus.read c ["c d"] "it" true).2.

End Main.

(** * Runs of the reader *)

(** Any number of reads one after the other, each consumed to the end; a
    read is given by its lines, its language and its [count] flag. *)
Definition reads (c : Corpus.t) (rs : list (list string * string * bool)) : Corpus.t :=
  foldl (λ c r, (Corpus.read c r.1.1 r.1.2 r.2).2) c rs.

(** The vocabulary is a numbering: the ids in use are exactly those below
    its size, no id is shared by two keys, and the three sentinels hold
    0, 1 and 2. *)
Definition vocab_ok (d : gmap string nat) : Prop :=
  (∀ i, i < size d ↔ ∃ k, d !! k = Some i) ∧
  (∀ k1 k2 i, d !! k1 = Some i → d !! k2 = Some i → k1 = k2) ∧
  d !! "<unk>" = Some 0 ∧ d !! "<s>" = Some 1 ∧ d !! "</s>" = Some 2.

(** What the reader keeps: a numbering for a vocabulary, and zero counts
    for the three sentinels. *)
Definition reader_ok (c : Corpus.t) : Prop :=
  vocab_ok (Corpus.w2i c) ∧
  ∀ i, i < 3 → NegativeSamplingLoss.freq_of (Corpus.freq c) i = 0.

(** Every context and every target the generator holds or has yielded
    satisfies [Pc], respectively [Pt]. *)
Definition rows_ok (Pc : list nat → Prop) (Pt : nat → Prop)
    (st : accum * list batch) : Prop :=
  Forall Pc (contexts st.1) ∧ Forall Pt (targets st.1) ∧
  Forall (λ b : batch, Forall Pc b.1 ∧ Forall Pt b.2) st.2.

(** The number of ids in the windows of the calls made for language [l]. *)
Fixpoint windows_total (l : DistributionLoss.lang)
    (cs : list (CBOW.t * list nat * bool)) : Z :=
  match cs with
  | [] => 0
  | (_, x, is_src) :: cs' =>
      (if decide ((if is_src then DistributionLoss.src else DistributionLoss.trg) = l)
       then Z.of_nat (length x) else 0)
      + windows_total l cs'
  end%Z.



(** Whether the character [a] occurs in [s]. *)
Fixpoint has_char (a : ascii) (s : string) : bool :=
  match s with
  | EmptyString => false
  | String b s' => if Ascii.eqb a b then true else has_char a s'
  end.

(** * Tactics *)

(** Closed integers under [IZR] are evaluated before [lra] runs. *)
Ltac real_calc :=
  repeat match goal with
         | |- context [IZR ?z] =>
             lazymatch z with
             | Z0 => fail
             | Zpos _ => fail
             | Zneg _ => fail
             | _ => let z' := eval vm_compute in z in change z with z'
             end
         end;
  lra.

(** Equality of two lists of closed reals, entry by entry. *)
Ltac list_calc :=
  cbn;
  repeat match goal with
         | |- _ :: _ = _ :: _ => apply (f_equal2 cons)
         | |- [] = [] => reflexivity
         end;
  try real_calc.

(** * Facts about the corpus reader *)

Section CorpusFacts.
Import Corpus.

Lemma w2i_get_size (d : gmap string nat) key :
  size d ≤ size (w2i_get d key).2.
Proof.
  unfold w2i_get. destruct (d !! key) eqn:E; simpl; [lia|].
  rewrite map_size_insert_None by done. lia.
Qed.

Lemma w2i_get_all_size words : ∀ (d : gmap string nat) lang,
  size d ≤ size (w2i_get_all d lang words).2.
Proof.
  induction words as [|w ws IH]; intros d lang; simpl; [lia|].
  pose proof (w2i_get_size d (lang +:+ ":" +:+ w)) as H1.
  destruct (w2i_get d (lang +:+ ":" +:+ w)) as [i d1]. simpl in H1.
  specialize (IH d1 lang).
  destruct (w2i_get_all d1 lang ws) as [ids d2]. simpl in *. lia.
Qed.

Lemma w2i_get_all_length words : ∀ (d : gmap string nat) lang,
  length (w2i_get_all d lang words).1 = length words.
Proof.
  induction words as [|w ws IH]; intros d lang; simpl; [done|].
  destruct (w2i_get d (lang +:+ ":" +:+ w)) as [i d1].
  specialize (IH d1 lang).
  destruct (w2i_get_all d1 lang ws) as [ids d2]. simpl in *. lia.
Qed.

(** What a single line leaves untouched, and how the vocabulary grows. *)
Lemma read_line_frame c lang count line :
  let c' := (read_line c lang count line).2 in
  window_size c' = window_size c ∧ BOS c' = BOS c ∧ EOS c' = EOS c ∧
  UNK c' = UNK c ∧ vocab_range c' = vocab_range c ∧
  size (w2i c) ≤ size (w2i c').
Proof.
  unfold read_line.
  destruct (_ <? _)%Z; simpl; [by repeat split|].
  pose proof (w2i_get_all_size (split line) (w2i c) lang) as Hs.
  destruct (w2i_get_all (w2i c) lang (split line)) as [indices d].
  destruct count; simpl in *; by repeat split.
Qed.

Lemma read_lines_frame lines : ∀ c lang count,
  let c' := (read_lines c lang count lines).2 in
  window_size c' = window_size c ∧ BOS c' = BOS c ∧ EOS c' = EOS c ∧
  UNK c' = UNK c ∧ vocab_range c' = vocab_range c ∧
  size (w2i c) ≤ size (w2i c').
Proof.
  induction lines as [|line rest IH]; intros c lang count; simpl.
  - by repeat split.
  - pose proof (read_line_frame c lang count line) as H1.
    destruct (read_line c lang count line) as [o c1]. simpl in H1.
    specialize (IH c1 lang count).
    destruct (read_lines c1 lang count rest) as [sents c2]. simpl in *.
    destruct H1 as (? & ? & ? & ? & ? & ?).
    destruct IH as (? & ? & ? & ? & ? & ?).
    repeat split; (congruence || lia).
Qed.

(** After [read]: the range recorded for [lang] is
    [(len(w2i) before, len(w2i) after)], other languages keep theirs. *)
Lemma read_spec c lines lang count :
  let c' := (read c lines lang count).2 in
  vocab_range c' = <[lang := (size (w2i c), size (w2i c'))]> (vocab_range c) ∧
  size (w2i c) ≤ size (w2i c') ∧
  BOS c' = BOS c ∧ EOS c' = EOS c ∧ UNK c' = UNK c ∧
  window_size c' = window_size c.
Proof.
  unfold read.
  pose proof (read_lines_frame lines c lang count) as H.
  destruct (read_lines c lang count lines) as [sents c1]. simpl in *.
  destruct H as (? & ? & ? & ? & -> & ?). by repeat split.
Qed.

Lemma init_size w : size (w2i (init w)) = 3.
Proof. reflexivity. Qed.

Lemma init_sentinels w : UNK (init w) = 0 ∧ BOS (init w) = 1 ∧ EOS (init w) = 2.
Proof. by repeat split. Qed.

End CorpusFacts.

(** * The sentences yielded by [Corpus.read] *)

Section Sentences.
Import Corpus.

(** C9.  A line with fewer than [2 * window_size - 1] tokens yields no
    sentence (and leaves the reader as it was); any other line yields a
    sentence of length (number of tokens) + 2 whose first id is [BOS] and
    whose last id is [EOS]. *)
Theorem read_line_sentence c lang count line :
  let n := length (split line) in
  if (Z.of_nat n <? 2 * Z.of_nat (window_size c) - 1)%Z
  then read_line c lang count line = (None, c)
  else ∃ sent c',
      read_line c lang count line = (Some sent, c') ∧
      length sent = n + 2 ∧
      head sent = Some (BOS c) ∧
      last sent = Some (EOS c).
Proof.
  intros n. unfold read_line. fold n.
  destruct (Z.of_nat n <? 2 * Z.of_nat (window_size c) - 1)%Z; [done|].
  pose proof (w2i_get_all_length (split line) (w2i c) lang) as Hlen.
  destruct (w2i_get_all (w2i c) lang (split line)) as [indices d].
  simpl in Hlen. eexists _, _. split; [done|].
  split; [|split].
  - simpl. rewrite length_app. simpl. fold n in Hlen. lia.
  - done.
  - change ([BOS c] ++ indices ++ [EOS c]) with ((BOS c :: indices) ++ [EOS c]).
    by rewrite last_snoc.
Qed.

(** The sentinels are the ids 0, 1, 2 in every reader obtained from
    [init] by reading. *)
Lemma read_sentinels c lines lang count :
  let c' := (read c lines lang count).2 in
  UNK c' = UNK c ∧ BOS c' = BOS c ∧ EOS c' = EOS c.
Proof. destruct (read_spec c lines lang count) as (_ & _ & ? & ? & ? & _). done. Qed.

End Sentences.

(** * The id ranges of the two languages *)

Section Ranges.
Import Corpus.

(** C6.  Reading two corpora one after the other, each to the end, under
    two different language codes: the two recorded ranges are disjoint
    half-open intervals, and an id is below the final vocabulary size
    exactly when it is a sentinel (0, 1, 2) or lies in one of the two
    ranges. *)
Theorem vocab_ranges_partition window lines1 lang1 count1 lines2 lang2 count2 :
  lang1 ≠ lang2 →
  let c1 := (read (init window) lines1 lang1 count1).2 in
  let c2 := (read c1 lines2 lang2 count2).2 in
  ∃ s1 e1 s2 e2,
    vocab_range c2 !! lang1 = Some (s1, e1) ∧
    vocab_range c2 !! lang2 = Some (s2, e2) ∧
    (∀ i, ¬ ((s1 ≤ i < e1) ∧ (s2 ≤ i < e2))) ∧
    (∀ i, i < get_vocabsize c2 ↔ i < 3 ∨ (s1 ≤ i < e1) ∨ (s2 ≤ i < e2)).
Proof.
  intros Hne c1 c2.
  destruct (read_spec (init window) lines1 lang1 count1) as (Hr1 & Hs1 & _).
  destruct (read_spec c1 lines2 lang2 count2) as (Hr2 & Hs2 & _).
  fold c1 in Hr1, Hs1. fold c2 in Hr2, Hs2.
  rewrite init_size in Hr1, Hs1.
  exists 3, (size (w2i c1)), (size (w2i c1)), (size (w2i c2)).
  split; [|split; [|split]].
  - rewrite Hr2, lookup_insert_ne by done. rewrite Hr1. by rewrite lookup_insert_eq.
  - rewrite Hr2. by rewrite lookup_insert_eq.
  - intros i. lia.
  - intros i. unfold get_vocabsize. lia.
Qed.

Lemma vocab_ranges_partition_witness :
  "en" ≠ "it" ∧
  let c1 := (read (init 1) ["a b a"; ""; "b c"] "en" true).2 in
  let c2 := (read c1 ["a d"] "it" true).2 in
  ∃ s1 e1 s2 e2,
    vocab_range c2 !! "en" = Some (s1, e1) ∧
    vocab_range c2 !! "it" = Some (s2, e2) ∧
    (∀ i, ¬ ((s1 ≤ i < e1) ∧ (s2 ≤ i < e2))) ∧
    (∀ i, i < get_vocabsize c2 ↔ i < 3 ∨ (s1 ≤ i < e1) ∨ (s2 ≤ i < e2)).
Proof.
  split; [done|].
  apply (vocab_ranges_partition 1 ["a b a"; ""; "b c"] "en" true ["a d"] "it" true).
  done.
Defined.

End Ranges.

(** * The pairs and the batches of [generate_batch] *)

Section Batches.

Lemma zip_snoc {A B} (l : list A) (k : list B) x y :
  length l = length k → zip (l ++ [x]) (k ++ [y]) = zip l k ++ [(x, y)].
Proof.
  revert k. induction l as [|a l IH]; intros [|b k] Hlen; simpl in *; try lia; [done|].
  f_equal. apply IH. lia.
Qed.

Lemma visit_step window batch_size sent st pos :
  accum_ok batch_size st →
  accum_ok batch_size (visit window batch_size sent st pos) ∧
  formed (visit window batch_size sent st pos)
    = formed st ++ [code_pair window sent pos].
Proof.
  destruct st as [a out]. intros (Hc & Ht & Hlt & Hout). simpl in *.
  unfold visit. destruct (batch_size <=? count a + 1) eqn:E.
  - apply Nat.leb_le in E. split.
    + repeat split; simpl; try lia.
      apply Forall_app. split; [done|]. constructor; [|done]. simpl.
      rewrite !length_app. simpl. split; [lia|]. intros H1. specialize (Hlt H1). lia.
    + unfold formed. simpl. rewrite map_app, concat_app. simpl.
      rewrite app_nil_r, app_nil_r. unfold pairs_of at 2. simpl.
      rewrite zip_snoc by lia. by rewrite app_assoc.
  - apply Nat.leb_gt in E. split.
    + repeat split; simpl; rewrite ?length_app; simpl; try lia. done.
    + unfold formed. simpl. rewrite zip_snoc by lia. by rewrite app_assoc.
Qed.

Lemma visit_all window batch_size sent ps : ∀ st,
  accum_ok batch_size st →
  accum_ok batch_size (foldl (visit window batch_size sent) st ps) ∧
  formed (foldl (visit window batch_size sent) st ps)
    = formed st ++ map (code_pair window sent) ps.
Proof.
  induction ps as [|pos ps IH]; intros st Hok; simpl.
  - by rewrite app_nil_r.
  - destruct (visit_step window batch_size sent st pos Hok) as [Hok' Hf].
    destruct (IH _ Hok') as [Hok'' Hf'']. split; [done|].
    rewrite Hf'', Hf. by rewrite <- app_assoc.
Qed.

(** A slice that stays inside the list is the list of the ids at its
    positions. *)
Lemma take_drop_positions (l : list nat) k : ∀ a,
  a + k ≤ length l →
  take k (drop a l) = map (λ i, nth i l 0) (seq a k).
Proof.
  induction k as [|k IH]; intros a Hle; simpl; [by rewrite take_0|].
  destruct (lookup_lt_is_Some_2 l a ltac:(lia)) as [x Hx].
  rewrite (drop_S _ _ _ Hx). simpl. f_equal.
  - rewrite nth_lookup, Hx. done.
  - apply IH. lia.
Qed.

Lemma code_pair_spec window sent pos :
  window ≤ pos → pos + window < length sent →
  code_pair window sent pos = spec_pair window sent pos.
Proof.
  intros H1 H2. unfold code_pair, spec_pair, slice. f_equal.
  rewrite map_app. f_equal.
  - replace (pos - (pos - window)) with window by lia.
    apply take_drop_positions. lia.
  - replace (pos + window + 1 - (pos + 1)) with window by lia.
    apply take_drop_positions. lia.
Qed.

Lemma scan_sentence_step window batch_size st sent :
  accum_ok batch_size st →
  accum_ok batch_size (scan_sentence window batch_size st sent) ∧
  formed (scan_sentence window batch_size st sent)
    = formed st ++ spec_pairs window sent.
Proof.
  intros Hok. unfold scan_sentence.
  destruct (visit_all window batch_size sent
              (range window (length sent - window)) st Hok) as [Hok' Hf].
  split; [done|]. rewrite Hf. f_equal.
  unfold spec_pairs, range.
  replace (length sent - 2 * window) with (length sent - window - window) by lia.
  apply map_ext_in. intros p Hp. apply in_seq in Hp.
  apply code_pair_spec; lia.
Qed.

Lemma scan_all window batch_size sents : ∀ st,
  accum_ok batch_size st →
  accum_ok batch_size (foldl (scan_sentence window batch_size) st sents) ∧
  formed (foldl (scan_sentence window batch_size) st sents)
    = formed st ++ concat (map (spec_pairs window) sents).
Proof.
  induction sents as [|sent sents IH]; intros st Hok; simpl.
  - by rewrite app_nil_r.
  - destruct (scan_sentence_step window batch_size st sent Hok) as [Hok' Hf].
    destruct (IH _ Hok') as [Hok'' Hf'']. split; [done|].
    rewrite Hf'', Hf. by rewrite <- app_assoc.
Qed.

Lemma accum_ok_start batch_size : accum_ok batch_size (accum_empty, []).
Proof. repeat split; simpl; try lia. constructor. Qed.

(** Every position read for a pair lies inside the sentence. *)
Lemma spec_pair_positions window (sent : list nat) p i :
  p ∈ seq window (length sent - 2 * window) →
  i ∈ seq (p - window) window ++ seq (p + 1) window ++ [p] →
  i < length sent.
Proof.
  rewrite !elem_of_app, !elem_of_seq, list_elem_of_singleton. lia.
Qed.


Lemma formed_length batch_size st :
  1 ≤ batch_size → accum_ok batch_size st →
  length (formed st) = batch_size * length st.2 + count st.1.
Proof.
  intros Hbs (Hc & Ht & _ & Hout). unfold formed.
  rewrite length_app, length_zip, Hc, Ht, Nat.min_id. f_equal.
  induction Hout as [|b out [Hb1 Hb2] _ IH]; simpl; [lia|].
  rewrite length_app, IH. unfold pairs_of. rewrite length_zip, Hb1, Nat.min_id.
  rewrite (Hb2 Hbs). lia.
Qed.

Lemma spec_pairs_total window sents :
  length (concat (map (spec_pairs window) sents))
  = sum_list (map (λ sent, length sent - 2 * window) sents).
Proof.
  induction sents as [|sent sents IH]; simpl; [done|].
  rewrite length_app, IH. unfold spec_pairs. by rewrite length_map, length_seq.
Qed.

(** C5, for a batch size of at least one.  Every batch yielded holds
    exactly [batch_size] contexts and [batch_size] targets; there are
    [total / batch_size] of them, [total] being the number of window
    positions of all sentences, so none when [total < batch_size]; and
    the [total mod batch_size] pairs accumulated last stay in the
    accumulator, which is never yielded. *)
Theorem generate_batch_full_batches sents window batch_size :
  1 ≤ batch_size →
  let total := sum_list (map (λ sent, length sent - 2 * window) sents) in
  let a := (generate_batch_run sents window batch_size).1 in
  let out := generate_batch sents window batch_size in
  Forall (λ b : batch, length b.1 = batch_size ∧ length b.2 = batch_size) out ∧
  length out = total / batch_size ∧
  (total < batch_size → out = []) ∧
  count a = total mod batch_size ∧
  length (contexts a) = count a ∧ length (targets a) = count a.
Proof.
  intros Hbs total a out.
  destruct (scan_all window batch_size sents _ (accum_ok_start batch_size))
    as [Hok Hf].
  fold (generate_batch_run sents window batch_size) in Hok, Hf.
  pose proof (formed_length _ _ Hbs Hok) as Hlen.
  rewrite Hf in Hlen. simpl in Hlen. rewrite spec_pairs_total in Hlen.
  fold total in Hlen.
  destruct Hok as (Hc & Ht & Hlt & Hout). specialize (Hlt Hbs).
  fold a in Hc, Ht, Hlt, Hlen.
  change ((generate_batch_run sents window batch_size).2) with out in Hout, Hlen.
  assert (Hq : length out = total / batch_size).
  { apply (Nat.div_unique total batch_size (length out) (count a)); lia. }
  repeat split; try done.
  - eapply Forall_impl; [exact Hout|]. intros b [H1 H2]. specialize (H2 Hbs). lia.
  - intros Hsmall. rewrite Nat.div_small in Hq by done.
    by apply nil_length_inv.
  - apply (Nat.mod_unique total batch_size (length out) (count a)); lia.
Qed.

Lemma generate_batch_full_batches_witness :
  1 ≤ 2 ∧
  let sents := [[1; 5; 6; 7; 2]; [1; 8; 2]; [1; 9; 2]] in
  let total := sum_list (map (λ sent, length sent - 2 * 1) sents) in
  let a := (generate_batch_run sents 1 2).1 in
  let out := generate_batch sents 1 2 in
  Forall (λ b : batch, length b.1 = 2 ∧ length b.2 = 2) out ∧
  length out = total / 2 ∧
  (total < 2 → out = []) ∧
  count a = total mod 2 ∧
  length (contexts a) = count a ∧ length (targets a) = count a.
Proof.
  split; [lia|].
  apply (generate_batch_full_batches [[1; 5; 6; 7; 2]; [1; 8; 2]; [1; 9; 2]] 1 2).
  lia.
Defined.

(** C5 as it is worded, for every batch size, fails at [batch_size = 0]:
    the test [count >= batch_size] then succeeds at every position, and
    each batch yielded holds one pair, not zero. *)
Lemma generate_batch_zero_batch_size :
  generate_batch [[1; 5; 2]] 1 0 = [([[1; 2]], [5])] ∧
  ¬ Forall (λ b : batch, length b.1 = 0 ∧ length b.2 = 0)
      (generate_batch [[1; 5; 2]] 1 0).
Proof.
  split; [reflexivity|].
  intros H. apply Forall_cons_1 in H as [[H _] _]. simpl in H. lia.
Qed.

End Batches.

(** * The two scoring paths of [CBOW] *)

Section Scoring.
Import Tensor CBOW.
Open Scope R_scope.

Lemma embedding_is_Some (W : list vec) ids :
  Forall (λ i, (i < length W)%nat) ids → is_Some (embedding W ids).
Proof.
  intros H. unfold embedding. apply mapM_is_Some.
  eapply Forall_impl; [exact H|]. intros i Hi. by apply lookup_lt_is_Some_2.
Qed.

Lemma context_mean_is_Some model X :
  Forall (Forall (λ i, (i < length (embeddings_x model))%nat)) X →
  is_Some (context_mean model X).
Proof.
  intros H. unfold context_mean. apply mapM_is_Some.
  eapply Forall_impl; [exact H|]. intros row Hrow. simpl.
  unfold context_row.
  destruct (embedding_is_Some _ _ Hrow) as [rows ->]. by eexists.
Qed.








End Scoring.

(** * The running statistics of [DistributionLoss] *)

Section Statistics.
Import Tensor DistributionLoss.
Open Scope R_scope.

(** What [update_stats] computes, with [agg] the sum of the rows looked
    up: the object named [vec] has become [agg + c * mean] by the time
    the deviation is taken. *)
Lemma update_stats_eq self model x l :
  update_stats self model x l =
    rows ← CBOW.embedding (CBOW.embeddings_x model) x;
    let agg := sum_rows (CBOW.dim_emb model) rows in
    let c := scount self l in
    let N := Z.of_nat (length x) in
    let vec' := vadd agg (vscale (IZR c) (m self l)) in
    let m_l := vdiv vec' (IZR (c + N)) in
    let d := vsub m_l vec' in
    Some {| m := upd (m self) l m_l;
            v := upd (v self) l
                   (mdiv (madd (outer d) (mscale (IZR c) (v self l))) (IZR (c + N)));
            scount := upd (scount self) l (Z.min 100000 (c + N));
            updated := upd (updated self) l true;
            lambda_m := lambda_m self;
            lambda_v := lambda_v self |}.
Proof. reflexivity. Qed.

Lemma upd_same {A} (f : lang → A) l x : upd f l x l = x.
Proof. by destruct l. Qed.

Lemma upd_other {A} (f : lang → A) l l' x : l' ≠ l → upd f l x l' = f l'.
Proof. by destruct l, l'. Qed.

(** The new mean is [(agg + c * mean) / (c + N)], as the spec has it. *)
Lemma update_stats_mean self model x l self' :
  update_stats self model x l = Some self' →
  ∃ rows, CBOW.embedding (CBOW.embeddings_x model) x = Some rows ∧
    m self' l = spec_mean (sum_rows (CBOW.dim_emb model) rows)
                  (scount self l) (Z.of_nat (length x)) (m self l).
Proof.
  rewrite update_stats_eq.
  destruct (CBOW.embedding _ x) as [rows|]; [|done]. cbn.
  intros [= <-]. exists rows. split; [done|]. cbn. by rewrite upd_same.
Qed.

(** The covariance as the code computes it, in general: the deviation is
    taken from the overwritten [vec], that is from [agg + c * mean]. *)
Lemma update_stats_cov self model x l self' :
  update_stats self model x l = Some self' →
  ∃ rows, CBOW.embedding (CBOW.embeddings_x model) x = Some rows ∧
    let agg := sum_rows (CBOW.dim_emb model) rows in
    let c := scount self l in
    let N := Z.of_nat (length x) in
    let d := vsub (spec_mean agg c N (m self l)) (vadd agg (vscale (IZR c) (m self l))) in
    v self' l = mdiv (madd (outer d) (mscale (IZR c) (v self l))) (IZR (c + N)).
Proof.
  rewrite update_stats_eq.
  destruct (CBOW.embedding _ x) as [rows|]; [|done]. cbn.
  intros [= <-]. exists rows. split; [done|]. cbn. by rewrite upd_same.
Qed.

(** C4, evaluated.  The window [[0; 1]] over the table [[[1; 0]; [0; 1]]],
    read twice for the same language.  The first call leaves mean
    [[1/2; 1/2]], a covariance with all entries [1/8] and count 2.  In the
    second call the aggregate vector is [[1; 1]] again and the new mean is
    [([1; 1] + 2 * [1/2; 1/2]) / 4 = [1/2; 1/2]] as claimed; but the
    covariance stored has all entries [5/8], where the claimed recurrence
    (deviation of the new mean from the aggregate vector, [-1/2] in each
    coordinate) gives [1/8]. *)
Theorem update_stats_covariance_uses_overwritten_vec :
  let model := CBOW.mk 2 [[1; 0]; [0; 1]] [[1; 0]; [0; 1]] in
  let x := [0; 1]%nat in
  let C1 := [[1 / 8; 1 / 8]; [1 / 8; 1 / 8]] in
  ∃ s1 s2,
    update_stats (init 2 (1 / 5) (1 / 10)) model x src = Some s1 ∧
    m s1 src = [1 / 2; 1 / 2] ∧ v s1 src = C1 ∧ scount s1 src = 2%Z ∧
    update_stats s1 model x src = Some s2 ∧
    m s2 src = [1 / 2; 1 / 2] ∧
    spec_mean [1; 1] 2 2 [1 / 2; 1 / 2] = [1 / 2; 1 / 2] ∧
    v s2 src = [[5 / 8; 5 / 8]; [5 / 8; 5 / 8]] ∧
    spec_cov [1; 1] 2 2 [1 / 2; 1 / 2] C1 = [[1 / 8; 1 / 8]; [1 / 8; 1 / 8]] ∧
    v s2 src ≠ spec_cov [1; 1] 2 2 [1 / 2; 1 / 2] C1.
Proof.
  intros model x C1. subst model x C1. eexists _, _.
  split; [reflexivity|].
  assert (Hcov : spec_cov [1; 1] 2 2 [1 / 2; 1 / 2] [[1 / 8; 1 / 8]; [1 / 8; 1 / 8]]
                 = [[1 / 8; 1 / 8]; [1 / 8; 1 / 8]]).
  { unfold spec_cov, spec_mean. list_calc. }
  rewrite Hcov.
  split; [list_calc|].
  split; [list_calc|].
  split; [reflexivity|].
  split; [reflexivity|].
  split; [list_calc|].
  split; [unfold spec_mean; list_calc|].
  split; [list_calc|].
  split; [reflexivity|].
  cbn. intros [= H _]. revert H. real_calc.
Qed.











End Statistics.

(** * The sampling prior and the negative draws *)

Section Prior.
Import Tensor NegativeSamplingLoss.
Open Scope R_scope.

Lemma pow075_0 : pow075 0 = 0.
Proof. unfold pow075. destruct (Rle_dec 0 0); [done|lra]. Qed.

Lemma pow075_1 : pow075 1 = 1.
Proof.
  unfold pow075. destruct (Rle_dec 1 0); [lra|].
  unfold Rpower. rewrite ln_1, Rmult_0_r. apply exp_0.
Qed.

Lemma pow075_2 : 1 < pow075 (1 + 1).
Proof.
  unfold pow075. destruct (Rle_dec (1 + 1) 0); [lra|].
  unfold Rpower.
  assert (Hln : 0 < ln (1 + 1)).
  { pose proof (ln_increasing 1 (1 + 1)) as H. rewrite ln_1 in H. apply H; lra. }
  pose proof (exp_increasing 0 (3 / 4 * ln (1 + 1))) as H.
  rewrite exp_0 in H. apply H. lra.
Qed.

(** The corpus of the example: ids 3 (twice) and 4 (once) are English,
    ids 5 and 6 (once each) are Italian. *)
Lemma corpus_example_freq :
  Corpus.freq Main.corpus_example
  = [(0, 0); (1, 0); (2, 0); (3, 2); (4, 1); (5, 1); (6, 1)]%nat.
Proof. vm_compute. reflexivity. Qed.

Lemma corpus_example_ranges :
  Corpus.vocab_range Main.corpus_example !! "en" = Some (3, 5)%nat ∧
  Corpus.vocab_range Main.corpus_example !! "it" = Some (5, 7)%nat.
Proof. split; vm_compute; reflexivity. Qed.

(** [calc_prior] on the example, with [w] standing for [2 ** 0.75]: the
    counts are sorted by their value, so the table is
    [0 0 0 1 1 1 w] whatever id each count belongs to. *)
Lemma calc_prior_example :
  let w := pow075 (1 + 1) in
  calc_prior (Corpus.freq Main.corpus_example)
    (Corpus.vocab_range Main.corpus_example) "en" "it"
  = Some ([0; 0; 0; 1; 1; 1; w],
          vdiv [0; 0; 0; 1; 1] (vsum [0; 0; 0; 1; 1]),
          vdiv [1; w] (vsum [1; w]),
          5%nat).
Proof.
  intros w. unfold calc_prior.
  destruct corpus_example_ranges as [-> ->]. rewrite corpus_example_freq.
  cbn. rewrite pow075_0, pow075_1. done.
Qed.

(** C3, evaluated on the example.  English is the slice [3, 5) with
    counts 2 (id 3) and 1 (id 4); Italian is the slice [5, 7) with counts
    1 and 1.  The spec gives id 3 more weight than id 4 and gives ids 5
    and 6 the same weight.  [calc_prior] sorts the counts by their value
    before slicing: its [p_src] gives ids 3 and 4 the same weight 1/2,
    and its [p_trg] gives its two entries different weights. *)
Theorem calc_prior_sorted_by_count_not_by_id :
  let c := Main.corpus_example in
  ∃ p p_src p_trg off,
    calc_prior (Corpus.freq c) (Corpus.vocab_range c) "en" "it"
      = Some (p, p_src, p_trg, off) ∧
    freq_of (Corpus.freq c) 3 = 2%nat ∧ freq_of (Corpus.freq c) 4 = 1%nat ∧
    freq_of (Corpus.freq c) 5 = 1%nat ∧ freq_of (Corpus.freq c) 6 = 1%nat ∧
    p_src !! 3%nat = Some (1 / 2) ∧ p_src !! 4%nat = Some (1 / 2) ∧
    spec_prior (Corpus.freq c) 3 5 4 < spec_prior (Corpus.freq c) 3 5 3 ∧
    (∃ a b, p_trg = [a; b] ∧ a < b) ∧
    spec_prior (Corpus.freq c) 5 7 5 = spec_prior (Corpus.freq c) 5 7 6.
Proof.
  intros c. unfold c. eexists _, _, _, _.
  split; [apply calc_prior_example|].
  rewrite corpus_example_freq.
  pose proof pow075_2 as Hw.
  repeat split; try reflexivity.
  - cbn. f_equal. lra.
  - cbn. f_equal. lra.
  - unfold spec_prior. cbn. rewrite pow075_1. unfold Rdiv.
    apply Rmult_lt_compat_r; [|lra]. apply Rinv_0_lt_compat. lra.
  - eexists _, _. split; [reflexivity|]. unfold Rdiv.
    apply Rmult_lt_compat_r; [|lra]. apply Rinv_0_lt_compat. cbn. lra.
Qed.

(** C1, evaluated on the example, 5 negatives per side, a batch of one
    English example.  The Italian slice is [5, 7) and [offset_trg] is 5,
    yet what [torch.multinomial] returns for [p_trg], an index into
    [p_trg], is used as the id: every cross-language negative is 0 or 1,
    none lies in [5, 7). *)
Theorem cross_negatives_are_slice_indices :
  let c := Main.corpus_example in
  ∃ self,
    init (Corpus.freq c) (Corpus.vocab_range c) "en" "it" 5 = Some self ∧
    Corpus.vocab_range c !! "it" = Some (5, 7)%nat ∧
    offset_trg self = 5%nat ∧
    draws self 1 true [3; 4; 3; 4; 3]%nat [0; 1; 0; 1; 0]%nat ∧
    targets_neg 1 [3; 4; 3; 4; 3]%nat [0; 1; 0; 1; 0]%nat
      = [[3; 4; 3; 4; 3; 0; 1; 0; 1; 0]%nat] ∧
    ∀ mono cross, draws self 1 true mono cross →
      Forall (λ j, (j < 2)%nat ∧ ¬ (5 ≤ j < 7)%nat) cross.
Proof.
  intros c. unfold c, init. rewrite calc_prior_example. cbn [mbind option_bind].
  eexists. split; [reflexivity|].
  split; [apply corpus_example_ranges|].
  split; [reflexivity|].
  pose proof pow075_2 as Hw.
  assert (Hpos : 0 < / (1 + (pow075 (1 + 1) + 0))).
  { apply Rinv_0_lt_compat. lra. }
  split; [|split; [reflexivity|]].
  - unfold draws. cbn. split; (split; [reflexivity|]).
    + repeat constructor; eexists; (split; [reflexivity|]); lra.
    + repeat constructor; eexists; (split; [reflexivity|]); unfold Rdiv; nra.
  - intros mono cross [_ [_ Hcross]]. cbn in Hcross.
    eapply Forall_impl; [exact Hcross|]. intros j (x & Hj & _). cbn.
    apply lookup_lt_Some in Hj. cbn in Hj. lia.
Qed.

End Prior.

(** * What the seed of [main] controls *)

Section Seeding.
Import Tensor Main.
Open Scope R_scope.

Variable np_seed : Z → N.
Variable cuda_manual_seed : Z → N.
Variable normal_ : N → nat → nat → list vec * N.
Variable epoch : args → run → run.
Variable cuda_is_available : bool.

(** The seeding sets numpy's generator, and torch's CUDA generator when
    CUDA is in use; torch's CPU generator keeps its start-up state. *)
Lemma seed_torch_cpu a g :
  torch_cpu (seed np_seed cuda_manual_seed cuda_is_available a g) = torch_cpu g ∧
  np_random (seed np_seed cuda_manual_seed cuda_is_available a g)
    = np_seed (random_seed a).
Proof. unfold seed. by destruct (cuda_is_available && cuda a). Qed.

(** Both languages have a range once both corpora are read, so the prior
    is built. *)
Lemma prior_is_built c0 lines1 lang1 lines2 lang2 n :
  let c := (Corpus.read (Corpus.read c0 lines1 lang1 true).2 lines2 lang2 true).2 in
  is_Some (NegativeSamplingLoss.init (Corpus.freq c) (Corpus.vocab_range c)
             lang1 lang2 n).
Proof.
  intros c.
  destruct (read_spec c0 lines1 lang1 true) as (Hr1 & _).
  destruct (read_spec (Corpus.read c0 lines1 lang1 true).2 lines2 lang2 true)
    as (Hr2 & _).
  fold c in Hr2.
  unfold NegativeSamplingLoss.init, NegativeSamplingLoss.calc_prior.
  assert (H2 : is_Some (Corpus.vocab_range c !! lang2)).
  { rewrite Hr2, lookup_insert_eq. by eexists. }
  assert (H1 : is_Some (Corpus.vocab_range c !! lang1)).
  { rewrite Hr2. destruct (decide (lang2 = lang1)) as [->|Hne].
    - rewrite lookup_insert_eq. by eexists.
    - rewrite lookup_insert_ne, Hr1, lookup_insert_eq by done. by eexists. }
  destruct H1 as [r1 ->], H2 as [r2 ->]. cbn. by eexists.
Qed.

(** C2, the run without training iterations.  The file written holds the
    table that [nn.Embedding] draws from torch's CPU generator in the
    state the process started with: the value of [--seed] does not enter,
    and two runs on the same arguments and the same corpora write the
    same file only if these draws happen to agree. *)
Theorem main_output_zero_iterations a g :
  n_iters a = 0%Z →
  let c := (Corpus.read
              (Corpus.read (Corpus.init (window_size a))
                 (lines_src a) (lang_src a) true).2
              (lines_trg a) (lang_trg a) true).2 in
  main np_seed cuda_manual_seed normal_ epoch cuda_is_available a g
  = Some (save_embeddings
            (normal_ (torch_cpu g) (Corpus.get_vocabsize c) DIM_EMB).1
            (Corpus.set_i2w c)).
Proof.
  intros Hn c. unfold main. rewrite Hn. cbn [Z.to_nat Nat.iter].
  pose proof (prior_is_built (Corpus.init (window_size a))
                (lines_src a) (lang_src a) (lines_trg a) (lang_trg a) 5) as Hp.
  fold c in Hp.
  destruct (Corpus.read (Corpus.init (window_size a)) (lines_src a) (lang_src a) true)
    as [s_src c1] eqn:E1.
  cbn [snd] in c, Hp.
  destruct (Corpus.read c1 (lines_trg a) (lang_trg a) true) as [s_trg c2] eqn:E2.
  cbn [snd] in c, Hp. subst c.
  unfold CBOW_init.
  destruct (seed_torch_cpu a g) as [-> _].
  destruct (normal_ (torch_cpu g) (Corpus.get_vocabsize c2) DIM_EMB) as [Wx s1].
  destruct (normal_ s1 (Corpus.get_vocabsize c2) DIM_EMB) as [Wy s2].
  destruct Hp as [lf ->]. reflexivity.
Qed.

End Seeding.

(** The same run with a generator whose draws are all equal to its state:
    two start-up states of torch's CPU generator, one seed, one pair of
    corpora, two different files. *)
Lemma main_output_zero_iterations_witness :
  let normal_ := λ (s : N) (n d : nat),
    (replicate n (replicate d (IZR (Z.of_N s))), N.succ s) in
  let a := Main.mk_args "en" ["a a b"] "it" ["c d"] 1 (1 / 100) 1 0 42 false in
  let run := Main.main (λ s, Z.to_N s) (λ s, Z.to_N s) normal_ (λ _ r, r) false a in
  let c := (Corpus.read
              (Corpus.read (Corpus.init (Main.window_size a))
                 (Main.lines_src a) (Main.lang_src a) true).2
              (Main.lines_trg a) (Main.lang_trg a) true).2 in
  Main.n_iters a = 0%Z ∧
  run (Main.mk_generators 0 0 0)
    = Some (Main.save_embeddings
              (normal_ 0%N (Corpus.get_vocabsize c) Main.DIM_EMB).1
              (Corpus.set_i2w c)) ∧
  run (Main.mk_generators 0 1 0)
    = Some (Main.save_embeddings
              (normal_ 1%N (Corpus.get_vocabsize c) Main.DIM_EMB).1
              (Corpus.set_i2w c)) ∧
  run (Main.mk_generators 0 0 0) ≠ run (Main.mk_generators 0 1 0).
Proof.
  intros normal_ a run c.
  assert (Hn : Main.n_iters a = 0%Z) by reflexivity.
  pose proof (main_output_zero_iterations (λ s, Z.to_N s) (λ s, Z.to_N s)
                normal_ (λ _ r, r) false a (Main.mk_generators 0 0 0) Hn) as H0.
  pose proof (main_output_zero_iterations (λ s, Z.to_N s) (λ s, Z.to_N s)
                normal_ (λ _ r, r) false a (Main.mk_generators 0 1 0) Hn) as H1.
  split; [exact Hn|]. split; [exact H0|]. split; [exact H1|].
  fold run in H0, H1. fold c in H0, H1. rewrite H0, H1. clear H0 H1.
  assert (Hv : Corpus.get_vocabsize c = 7%nat) by (vm_compute; reflexivity).
  assert (Hw : ∃ w ws, Corpus.set_i2w c = w :: ws).
  { eexists _, _. vm_compute. reflexivity. }
  destruct Hw as (w & ws & Hw).
  rewrite Hv, Hw. clearbody c. clear Hv Hw.
  intros H. injection H as H. lra.
Defined.


(** * The vocabulary as a numbering *)

Section Vocabulary.
Import Corpus.

Lemma init_lookup w (k : string) i :
  w2i (init w) !! k = Some i ↔
  (k = "<unk>" ∧ i = 0) ∨ (k = "<s>" ∧ i = 1) ∨ (k = "</s>" ∧ i = 2).
Proof.
  assert (Hd : w2i (init w)
               = <["</s>" := 2]> (<["<s>" := 1]> (<["<unk>" := 0]> ∅))) by reflexivity.
  rewrite Hd, !lookup_insert_Some, lookup_empty. split.
  - intros [[<- <-]|[_ [[<- <-]|[_ [[<- <-]|[_ ?]]]]]]; auto. discriminate.
  - intros [[-> ->]|[[-> ->]|[-> ->]]].
    + right. split; [discriminate|]. right. split; [discriminate|].
      left. split; reflexivity.
    + right. split; [discriminate|]. left. split; reflexivity.
    + left. split; reflexivity.
Qed.

Lemma vocab_ok_init w : vocab_ok (w2i (init w)).
Proof.
  unfold vocab_ok. rewrite init_size. split; [|split; [|split; [|split]]].
  - intros i. split.
    + intros Hi. assert (i = 0 ∨ i = 1 ∨ i = 2) as [->|[->| ->]] by lia.
      * exists "<unk>". apply init_lookup. left. split; reflexivity.
      * exists "<s>". apply init_lookup. right. left. split; reflexivity.
      * exists "</s>". apply init_lookup. right. right. split; reflexivity.
    + intros [k Hk]. apply init_lookup in Hk.
      destruct Hk as [[_ ->]|[[_ ->]|[_ ->]]]; lia.
  - intros k1 k2 i H1 H2. apply init_lookup in H1, H2.
    destruct H1 as [[-> ->]|[[-> ->]|[-> ->]]],
             H2 as [[-> H]|[[-> H]|[-> H]]];
      first [reflexivity | discriminate H].
  - apply init_lookup. left. split; reflexivity.
  - apply init_lookup. right. left. split; reflexivity.
  - apply init_lookup. right. right. split; reflexivity.
Qed.

Lemma w2i_get_ok (d : gmap string nat) key :
  vocab_ok d →
  vocab_ok (w2i_get d key).2 ∧ d ⊆ (w2i_get d key).2 ∧
  (w2i_get d key).2 !! key = Some (w2i_get d key).1.
Proof.
  intros Hok. pose proof Hok as (Hdense & Hinj & H0 & H1 & H2). unfold w2i_get.
  destruct (d !! key) as [i|] eqn:E; simpl.
  { split; [exact Hok|]. split; [reflexivity|exact E]. }
  assert (Hfresh : ∀ k, d !! k = Some (size d) → False).
  { intros k Hk. assert (size d < size d); [|lia]. apply Hdense. eauto. }
  assert (Hold : ∀ k i, d !! k = Some i → <[key:=size d]> d !! k = Some i).
  { intros k i Hk. rewrite lookup_insert_ne; [exact Hk|]. congruence. }
  split; [|split].
  - split; [|split; [|split; [|split]]]; try (apply Hold; assumption).
    + intros i. rewrite map_size_insert_None by exact E. split.
      * intros Hi. destruct (decide (i = size d)) as [->|Hne].
        -- exists key. apply lookup_insert_eq.
        -- destruct (proj1 (Hdense i) ltac:(lia)) as [k Hk].
           exists k. apply Hold, Hk.
      * intros [k Hk]. apply lookup_insert_Some in Hk as [[_ <-]|[_ Hk]]; [lia|].
        assert (i < size d); [|lia]. apply Hdense. eauto.
    + intros k1 k2 i Hk1 Hk2.
      apply lookup_insert_Some in Hk1 as [[<- <-]|[_ Hk1]];
        apply lookup_insert_Some in Hk2 as [[<- Hi]|[_ Hk2]].
      * reflexivity.
      * destruct (Hfresh k2 Hk2).
      * subst i. destruct (Hfresh k1 Hk1).
      * exact (Hinj k1 k2 i Hk1 Hk2).
  - apply insert_subseteq, E.
  - apply lookup_insert_eq.
Qed.

Lemma w2i_get_all_ok words : ∀ (d : gmap string nat) lang,
  vocab_ok d →
  let r := w2i_get_all d lang words in
  vocab_ok r.2 ∧ d ⊆ r.2 ∧
  Forall2 (λ w i, r.2 !! (lang +:+ ":" +:+ w) = Some i) words r.1.
Proof.
  induction words as [|w ws IH]; intros d lang Hok; simpl.
  - split; [exact Hok|]. split; [reflexivity|constructor].
  - destruct (w2i_get_ok d (lang +:+ ":" +:+ w) Hok) as (Hok1 & Hsub1 & Hkey).
    destruct (w2i_get d (lang +:+ ":" +:+ w)) as [i d1]. simpl in *.
    destruct (IH d1 lang Hok1) as (Hok2 & Hsub2 & Hall).
    destruct (w2i_get_all d1 lang ws) as [ids d2]. simpl in *.
    split; [exact Hok2|]. split; [etrans; eassumption|].
    constructor; [|exact Hall]. eapply lookup_weaken; eassumption.
Qed.

Lemma read_line_ok c lang count line :
  vocab_ok (w2i c) →
  vocab_ok (w2i (read_line c lang count line).2) ∧
  w2i c ⊆ w2i (read_line c lang count line).2.
Proof.
  intros Hok. unfold read_line.
  destruct (_ <? _)%Z; simpl; [split; [exact Hok|reflexivity]|].
  destruct (w2i_get_all_ok (split line) (w2i c) lang Hok) as (Hok' & Hsub & _).
  destruct (w2i_get_all (w2i c) lang (split line)) as [indices d].
  destruct count; simpl in *; split; assumption.
Qed.

Lemma read_lines_ok lines : ∀ c lang count,
  vocab_ok (w2i c) →
  vocab_ok (w2i (read_lines c lang count lines).2) ∧
  w2i c ⊆ w2i (read_lines c lang count lines).2.
Proof.
  induction lines as [|line rest IH]; intros c lang count Hok; simpl;
    [split; [exact Hok|reflexivity]|].
  destruct (read_line_ok c lang count line Hok) as [Hok1 Hsub1].
  destruct (read_line c lang count line) as [o c1]. simpl in *.
  destruct (IH c1 lang count Hok1) as [Hok2 Hsub2].
  destruct (read_lines c1 lang count rest) as [sents c2]. simpl in *.
  split; [exact Hok2|]. etrans; eassumption.
Qed.

Lemma read_ok c lines lang count :
  vocab_ok (w2i c) →
  vocab_ok (w2i (read c lines lang count).2) ∧
  w2i c ⊆ w2i (read c lines lang count).2.
Proof.
  intros Hok. unfold read.
  destruct (read_lines_ok lines c lang count Hok) as [Hok1 Hsub1].
  destruct (read_lines c lang count lines) as [sents c1]. simpl in *.
  split; assumption.
Qed.

Lemma reads_ok rs : ∀ c,
  vocab_ok (w2i c) → vocab_ok (w2i (reads c rs)) ∧ w2i c ⊆ w2i (reads c rs).
Proof.
  induction rs as [|[[lines lang] count] rs IH]; intros c Hok; simpl;
    [split; [exact Hok|reflexivity]|].
  destruct (read_ok c lines lang count Hok) as [Hok1 Hsub1].
  destruct (IH _ Hok1) as [Hok2 Hsub2]. split; [exact Hok2|]. etrans; eassumption.
Qed.

(** X1.  Whatever is read after [Corpus()], the ids of the vocabulary are
    exactly the numbers below [len(w2i)] and no two keys share an id. *)
Theorem w2i_ids_dense_and_distinct window rs :
  let d := w2i (reads (init window) rs) in
  (∀ i, i < size d ↔ ∃ k, d !! k = Some i) ∧
  (∀ k1 k2 i, d !! k1 = Some i → d !! k2 = Some i → k1 = k2).
Proof.
  intros d.
  destruct (reads_ok rs (init window) (vocab_ok_init window)) as [(H1 & H2 & _) _].
  split; assumption.
Qed.

Lemma w2i_get_sub (d : gmap string nat) key : d ⊆ (w2i_get d key).2.
Proof.
  unfold w2i_get. destruct (d !! key) eqn:E; simpl; [reflexivity|].
  apply insert_subseteq, E.
Qed.

Lemma w2i_get_all_sub words : ∀ (d : gmap string nat) lang,
  d ⊆ (w2i_get_all d lang words).2.
Proof.
  induction words as [|w ws IH]; intros d lang; simpl; [reflexivity|].
  pose proof (w2i_get_sub d (lang +:+ ":" +:+ w)) as H1.
  destruct (w2i_get d (lang +:+ ":" +:+ w)) as [i d1]. simpl in H1.
  specialize (IH d1 lang).
  destruct (w2i_get_all d1 lang ws) as [ids d2]. simpl in *.
  etrans; eassumption.
Qed.

Lemma read_line_sub c lang count line :
  w2i c ⊆ w2i (read_line c lang count line).2.
Proof.
  unfold read_line. destruct (_ <? _)%Z; simpl; [reflexivity|].
  pose proof (w2i_get_all_sub (split line) (w2i c) lang) as H.
  destruct (w2i_get_all (w2i c) lang (split line)) as [indices d].
  destruct count; exact H.
Qed.

Lemma read_lines_sub lines : ∀ c lang count,
  w2i c ⊆ w2i (read_lines c lang count lines).2.
Proof.
  induction lines as [|line rest IH]; intros c lang count; simpl; [reflexivity|].
  pose proof (read_line_sub c lang count line) as H1.
  destruct (read_line c lang count line) as [o c1]. simpl in H1.
  specialize (IH c1 lang count).
  destruct (read_lines c1 lang count rest) as [sents c2]. simpl in *.
  etrans; eassumption.
Qed.

(** X2.  A read never removes a key and never changes the id of a key that
    already has one. *)
Theorem read_keeps_ids c lines lang count key i :
  w2i c !! key = Some i →
  w2i (read c lines lang count).2 !! key = Some i.
Proof.
  intros Hk. unfold read.
  pose proof (read_lines_sub lines c lang count) as Hsub.
  destruct (read_lines c lang count lines) as [sents c1]. simpl in *.
  eapply lookup_weaken; eassumption.
Qed.

Lemma read_keeps_ids_witness :
  w2i (init 2) !! "<s>" = Some 1 ∧
  w2i (read (init 2) ["a b c"; "d e f g"] "en" true).2 !! "<s>" = Some 1.
Proof.
  assert (H : w2i (init 2) !! "<s>" = Some 1) by reflexivity.
  split; [exact H|].
  exact (read_keeps_ids (init 2) ["a b c"; "d e f g"] "en" true "<s>" 1 H).
Defined.

Lemma has_char_app a s1 s2 :
  has_char a (s1 +:+ s2) = has_char a s1 || has_char a s2.
Proof.
  induction s1 as [|b s1 IH]; simpl; [reflexivity|].
  destruct (Ascii.eqb a b); [reflexivity|exact IH].
Qed.

(** A language-qualified key holds a colon, the three sentinels do not. *)
Lemma key_not_sentinel lang w :
  lang +:+ ":" +:+ w ≠ "<unk>" ∧ lang +:+ ":" +:+ w ≠ "<s>" ∧
  lang +:+ ":" +:+ w ≠ "</s>".
Proof.
  assert (H : has_char ":" (lang +:+ ":" +:+ w) = true).
  { rewrite has_char_app. simpl. apply orb_true_r. }
  repeat split; intros E; rewrite E in H; discriminate H.
Qed.

Lemma reads_sentinels rs : ∀ c,
  UNK (reads c rs) = UNK c ∧ BOS (reads c rs) = BOS c ∧ EOS (reads c rs) = EOS c.
Proof.
  induction rs as [|[[lines lang] count] rs IH]; intros c; simpl.
  - split; [|split]; reflexivity.
  - destruct (IH (read c lines lang count).2) as (-> & -> & ->).
    destruct (read_spec c lines lang count) as (_ & _ & H1 & H2 & H3 & _).
    split; [|split]; assumption.
Qed.

(** X3.  In a sentence yielded after any number of reads, the first id is
    1 and the last id is 2, and every id in between is the id of a
    language-qualified word: at least 3 and below the vocabulary size as
    it is after the line. *)
Theorem sentence_ids_in_vocabulary window rs lang count line sent :
  let c := reads (init window) rs in
  (read_line c lang count line).1 = Some sent →
  ∃ indices,
    sent = [1] ++ indices ++ [2] ∧
    Forall (λ i, 3 ≤ i < get_vocabsize (read_line c lang count line).2) indices.
Proof.
  intros c Hsent.
  destruct (reads_ok rs (init window) (vocab_ok_init window)) as [Hok _].
  fold c in Hok.
  destruct (reads_sentinels rs (init window)) as (_ & HB & HE). fold c in HB, HE.
  revert Hsent. unfold read_line, get_vocabsize.
  destruct (_ <? _)%Z; simpl; [discriminate|].
  destruct (w2i_get_all_ok (split line) (w2i c) lang Hok) as (Hok' & _ & Hall).
  destruct (w2i_get_all (w2i c) lang (split line)) as [indices d]. simpl in *.
  assert (Hids : Forall (λ i, 3 ≤ i < size d) indices).
  { destruct Hok' as (Hdense & Hinj & H0 & H1 & H2).
    clear -Hall Hdense Hinj H0 H1 H2.
    induction Hall as [|w i ws ids Hw _ IH]; constructor; [|exact IH].
    destruct (key_not_sentinel lang w) as (N0 & N1 & N2).
    assert (i < size d) by (apply Hdense; eauto).
    assert (i ≠ 0) by (intros ->; apply N0; exact (Hinj _ _ _ Hw H0)).
    assert (i ≠ 1) by (intros ->; apply N1; exact (Hinj _ _ _ Hw H1)).
    assert (i ≠ 2) by (intros ->; apply N2; exact (Hinj _ _ _ Hw H2)).
    lia. }
  intros [= <-]. exists indices. split.
  { rewrite HB, HE. reflexivity. }
  destruct count; simpl; exact Hids.
Qed.

Lemma sentence_ids_in_vocabulary_witness :
  let c := reads (init 1) [(["x y"], "en", true)] in
  (read_line c "it" true "u x u").1 = Some [1; 5; 6; 5; 2] ∧
  ∃ indices,
    [1; 5; 6; 5; 2] = [1] ++ indices ++ [2] ∧
    Forall (λ i, 3 ≤ i < get_vocabsize (read_line c "it" true "u x u").2) indices.
Proof.
  intros c.
  assert (H : (read_line c "it" true "u x u").1 = Some [1; 5; 6; 5; 2])
    by (vm_compute; reflexivity).
  split; [exact H|].
  exact (sentence_ids_in_vocabulary 1 [(["x y"], "en", true)] "it" true "u x u"
           [1; 5; 6; 5; 2] H).
Defined.

End Vocabulary.

(** * [set_i2w] and the order of [sorted] *)

Section Ordering.
Import Corpus.

Lemma insert_by_snd_perm {A} (x : A * nat) l : insert_by_snd x l ≡ₚ x :: l.
Proof.
  induction l as [|y l IH]; simpl; [reflexivity|].
  destruct (x.2 <=? y.2); [reflexivity|].
  rewrite IH. apply Permutation_swap.
Qed.

Lemma sorted_by_snd_perm {A} (l : list (A * nat)) : sorted_by_snd l ≡ₚ l.
Proof.
  unfold sorted_by_snd. induction l as [|x l IH]; simpl; [reflexivity|].
  rewrite insert_by_snd_perm. by rewrite IH.
Qed.

Lemma insert_by_snd_sorted {A} (x : A * nat) l :
  StronglySorted le l.*2 → StronglySorted le (insert_by_snd x l).*2.
Proof.
  induction l as [|y l IH]; simpl; intros Hs.
  - repeat constructor.
  - apply StronglySorted_inv in Hs as [Hs Hall].
    destruct (x.2 <=? y.2) eqn:E.
    + apply Nat.leb_le in E. simpl. constructor.
      * by constructor.
      * constructor; [exact E|]. eapply Forall_impl; [exact Hall|].
        simpl. intros z Hz. lia.
    + apply Nat.leb_gt in E. simpl. constructor; [by apply IH|].
      rewrite insert_by_snd_perm. simpl. constructor; [lia|exact Hall].
Qed.

Lemma sorted_by_snd_sorted {A} (l : list (A * nat)) :
  StronglySorted le (sorted_by_snd l).*2.
Proof.
  unfold sorted_by_snd. induction l as [|x l IH]; simpl; [constructor|].
  by apply insert_by_snd_sorted.
Qed.

Lemma seq_sorted n : ∀ j, StronglySorted le (seq j n).
Proof.
  induction n as [|n IH]; intros j; simpl; constructor; [apply IH|].
  apply Forall_forall. intros x Hx. apply elem_of_seq in Hx. lia.
Qed.

(** Sorting the items of a numbering by id lists the ids [0, 1, 2, ...]. *)
Lemma sorted_ids (d : gmap string nat) :
  vocab_ok d → (sorted_by_snd (map_to_list d)).*2 = seq 0 (size d).
Proof.
  intros (Hdense & Hinj & _).
  apply (StronglySorted_unique le).
  - apply sorted_by_snd_sorted.
  - apply seq_sorted.
  - rewrite sorted_by_snd_perm. apply NoDup_Permutation.
    + apply NoDup_fmap_2_strong; [|apply NoDup_map_to_list].
      intros [k1 i1] [k2 i2] H1 H2 E. simpl in E. subst i2.
      apply elem_of_map_to_list in H1, H2. f_equal. exact (Hinj _ _ _ H1 H2).
    + apply NoDup_seq.
    + intros i. rewrite elem_of_seq, list_elem_of_fmap. split.
      * intros ([k j] & -> & Hk). apply elem_of_map_to_list in Hk.
        simpl. split; [lia|]. apply Hdense. eauto.
      * intros [_ Hi]. destruct (proj1 (Hdense i) ltac:(lia)) as [k Hk].
        exists (k, i). split; [reflexivity|]. by apply elem_of_map_to_list.
Qed.

(** X4.  After any number of reads [set_i2w] inverts [w2i]: the word at
    index [i] of [i2w] is [k] exactly when [w2i[k]] is [i]. *)
Theorem set_i2w_inverts_w2i window rs (k : string) (i : nat) :
  let c := reads (init window) rs in
  set_i2w c !! i = Some k ↔ w2i c !! k = Some i.
Proof.
  intros c.
  destruct (reads_ok rs (init window) (vocab_ok_init window)) as [Hok _].
  fold c in Hok. pose proof (sorted_ids (w2i c) Hok) as Hids.
  unfold set_i2w. set (l := sorted_by_snd (map_to_list (w2i c))) in *.
  assert (Hmem : ∀ k' j, (k', j) ∈ l ↔ w2i c !! k' = Some j).
  { intros k' j. unfold l. rewrite sorted_by_snd_perm.
    apply elem_of_map_to_list. }
  assert (Hpos : ∀ n k' j, l !! n = Some (k', j) → j = n).
  { intros n k' j Hn.
    assert (H2 : l.*2 !! n = Some j) by (rewrite list_lookup_fmap, Hn; reflexivity).
    rewrite Hids in H2. apply lookup_seq in H2. lia. }
  rewrite list_lookup_fmap. split.
  - destruct (l !! i) as [[k' j]|] eqn:E; simpl; [|discriminate].
    intros [= ->]. rewrite (Hpos _ _ _ E) in E.
    apply Hmem. eapply list_elem_of_lookup_2. exact E.
  - intros Hk. apply Hmem in Hk. apply list_elem_of_lookup_1 in Hk as [n Hn].
    rewrite <- (Hpos _ _ _ Hn) in Hn. rewrite Hn. reflexivity.
Qed.

End Ordering.

(** * The frequency table *)

Section Frequencies.
Import Corpus NegativeSamplingLoss.
Local Open Scope nat_scope.

Lemma freq_of_incr f j i :
  freq_of (freq_incr f j) i = freq_of f i + (if decide (j = i) then 1 else 0).
Proof.
  induction f as [|[k c] f IH]; simpl.
  - destruct (decide (j = i)) as [->|Hne].
    + by rewrite Nat.eqb_refl.
    + apply Nat.eqb_neq in Hne. by rewrite Hne.
  - destruct (k =? j) eqn:Ekj; simpl.
    + apply Nat.eqb_eq in Ekj. subst k.
      destruct (decide (j = i)) as [->|Hne].
      * rewrite Nat.eqb_refl. lia.
      * apply Nat.eqb_neq in Hne. rewrite Hne. lia.
    + destruct (k =? i) eqn:Eki; [|exact IH].
      apply Nat.eqb_eq in Eki. subst k. apply Nat.eqb_neq in Ekj.
      rewrite decide_False by congruence. lia.
Qed.

Lemma freq_of_foldl ids : ∀ f i,
  freq_of (foldl freq_incr f ids) i
  = freq_of f i + length (filter (λ j, j = i) ids).
Proof.
  induction ids as [|j ids IH]; intros f i; simpl; [lia|].
  rewrite IH, freq_of_incr, filter_cons.
  destruct (decide (j = i)); simpl; lia.
Qed.

(** What one line does, for a reader whose vocabulary is a numbering. *)
Lemma read_line_shape c lang count line :
  vocab_ok (w2i c) →
  match (read_line c lang count line).1 with
  | None => (read_line c lang count line).2 = c
  | Some sent =>
      ∃ indices,
        sent = [BOS c] ++ indices ++ [EOS c] ∧
        length indices = length (split line) ∧
        Forall (λ i, 3 ≤ i < size (w2i (read_line c lang count line).2)) indices ∧
        freq (read_line c lang count line).2
          = (if count then foldl freq_incr (freq c) indices else freq c)
  end.
Proof.
  intros Hok. unfold read_line.
  destruct (_ <? _)%Z; simpl; [reflexivity|].
  destruct (w2i_get_all_ok (split line) (w2i c) lang Hok) as (Hok' & _ & Hall).
  destruct (w2i_get_all (w2i c) lang (split line)) as [indices d]. simpl in *.
  exists indices. split; [reflexivity|].
  split; [symmetry; eapply Forall2_length; exact Hall|].
  assert (Hids : Forall (λ i, 3 ≤ i < size d) indices).
  { destruct Hok' as (Hdense & Hinj & H0 & H1 & H2).
    clear -Hall Hdense Hinj H0 H1 H2.
    induction Hall as [|w i ws ids Hw _ IH]; constructor; [|exact IH].
    destruct (key_not_sentinel lang w) as (N0 & N1 & N2).
    assert (i < size d) by (apply Hdense; eauto).
    assert (i ≠ 0) by (intros ->; apply N0; exact (Hinj _ _ _ Hw H0)).
    assert (i ≠ 1) by (intros ->; apply N1; exact (Hinj _ _ _ Hw H1)).
    assert (i ≠ 2) by (intros ->; apply N2; exact (Hinj _ _ _ Hw H2)).
    lia. }
  destruct count; simpl; (split; [exact Hids|reflexivity]).
Qed.

(** X5.  A line that is accepted raises the count of every id by the
    number of times the id occurs among the tokens of the line when
    [count] is set, and leaves the table alone when it is not. *)
Theorem read_line_counts_tokens c lang count line sent :
  (read_line c lang count line).1 = Some sent →
  ∃ indices,
    sent = [BOS c] ++ indices ++ [EOS c] ∧
    ∀ i, freq_of (freq (read_line c lang count line).2) i
         = freq_of (freq c) i
           + (if count then length (filter (λ j, j = i) indices) else 0).
Proof.
  unfold read_line. destruct (_ <? _)%Z; simpl; [discriminate|].
  destruct (w2i_get_all (w2i c) lang (split line)) as [indices d]. simpl.
  intros [= <-]. exists indices. split; [reflexivity|]. intros i.
  destruct count; simpl; [apply freq_of_foldl|lia].
Qed.

Lemma read_line_counts_tokens_witness :
  (read_line (Corpus.init 1) "en" true "a b a").1 = Some [1; 3; 4; 3; 2] ∧
  ∃ indices,
    [1; 3; 4; 3; 2] = [BOS (Corpus.init 1)] ++ indices ++ [EOS (Corpus.init 1)] ∧
    ∀ i, freq_of (freq (read_line (Corpus.init 1) "en" true "a b a").2) i
         = freq_of (freq (Corpus.init 1)) i
           + (if true then length (filter (λ j, j = i) indices) else 0).
Proof.
  assert (H : (read_line (Corpus.init 1) "en" true "a b a").1 = Some [1; 3; 4; 3; 2])
    by (vm_compute; reflexivity).
  split; [exact H|].
  exact (read_line_counts_tokens (Corpus.init 1) "en" true "a b a" [1; 3; 4; 3; 2] H).
Defined.

Lemma filter_eq_nil (i : nat) ids :
  Forall (λ j, j ≠ i) ids → filter (λ j, j = i) ids = [].
Proof.
  induction 1 as [|j ids Hj _ IH]; [reflexivity|].
  rewrite filter_cons, decide_False by exact Hj. exact IH.
Qed.

Lemma reader_ok_line c lang count line :
  reader_ok c → reader_ok (read_line c lang count line).2.
Proof.
  intros [Hok Hz]. split; [apply read_line_ok, Hok|].
  pose proof (read_line_shape c lang count line Hok) as Hs.
  destruct ((read_line c lang count line).1) as [sent|]; [|rewrite Hs; exact Hz].
  destruct Hs as (indices & _ & _ & Hids & ->).
  intros i Hi. destruct count; [|apply Hz, Hi].
  rewrite freq_of_foldl, (Hz i Hi), filter_eq_nil; [reflexivity|].
  eapply Forall_impl; [exact Hids|]. simpl. intros j Hj. lia.
Qed.

Lemma reader_ok_lines lines : ∀ c lang count,
  reader_ok c → reader_ok (read_lines c lang count lines).2.
Proof.
  induction lines as [|line rest IH]; intros c lang count Hok; simpl; [exact Hok|].
  pose proof (reader_ok_line c lang count line Hok) as H1.
  destruct (read_line c lang count line) as [o c1]. simpl in H1.
  specialize (IH c1 lang count H1).
  destruct (read_lines c1 lang count rest) as [sents c2]. exact IH.
Qed.

Lemma reader_ok_read c lines lang count :
  reader_ok c → reader_ok (read c lines lang count).2.
Proof.
  intros Hok. unfold read.
  pose proof (reader_ok_lines lines c lang count Hok) as H1.
  destruct (read_lines c lang count lines) as [sents c1]. exact H1.
Qed.

Lemma reader_ok_reads rs : ∀ c, reader_ok c → reader_ok (reads c rs).
Proof.
  induction rs as [|[[lines lang] count] rs IH]; intros c Hok; simpl; [exact Hok|].
  apply IH, reader_ok_read, Hok.
Qed.

Lemma reader_ok_init w : reader_ok (Corpus.init w).
Proof.
  split; [apply vocab_ok_init|]. intros i Hi.
  assert (i = 0 ∨ i = 1 ∨ i = 2) as [->|[->| ->]] by lia; reflexivity.
Qed.

(** X6.  The three sentinels are never counted: whatever is read, with or
    without counting, their frequencies stay 0. *)
Theorem sentinel_counts_stay_zero window rs i :
  i < 3 → freq_of (freq (reads (Corpus.init window) rs)) i = 0.
Proof.
  intros Hi.
  destruct (reader_ok_reads rs (Corpus.init window) (reader_ok_init window)) as [_ Hz].
  exact (Hz i Hi).
Qed.

Lemma sentinel_counts_stay_zero_witness :
  1 < 3 ∧
  freq_of (freq (reads (Corpus.init 2) [(["a b c"; "b"], "en", true);
                                 (["x y z w"], "it", true)])) 1 = 0.
Proof.
  assert (H : 1 < 3) by lia.
  split; [exact H|].
  exact (sentinel_counts_stay_zero 2 [(["a b c"; "b"], "en", true);
                                      (["x y z w"], "it", true)] 1 H).
Defined.

Lemma freq_incr_keys f i :
  (freq_incr f i).*1 = if decide (i ∈ f.*1) then f.*1 else f.*1 ++ [i].
Proof.
  induction f as [|[k c] f IH].
  - destruct (decide (i ∈ ([] : list (nat * nat)).*1)) as [Hin|_]; [|reflexivity].
    by apply elem_of_nil in Hin.
  - cbn [freq_incr]. destruct (k =? i) eqn:E.
    + apply Nat.eqb_eq in E. subst k.
      destruct (decide (i ∈ ((i, c) :: f).*1)) as [_|Hnin]; [reflexivity|].
      destruct Hnin. apply list_elem_of_here.
    + apply Nat.eqb_neq in E. rewrite fmap_cons, IH. cbn [fst].
      destruct (decide (i ∈ f.*1)) as [Hin|Hnin];
        destruct (decide (i ∈ ((k, c) :: f).*1)) as [Hin'|Hnin']; try reflexivity.
      * destruct Hnin'. rewrite fmap_cons. by apply list_elem_of_further.
      * rewrite fmap_cons in Hin'. apply elem_of_cons in Hin' as [?|?];
          [simpl in *; congruence|contradiction].
Qed.

(** Interning the words of a line and then counting their ids keeps the
    keys of the table in step with the vocabulary. *)
Lemma intern_then_count_keys words : ∀ (d : gmap string nat) f lang,
  vocab_ok d → f.*1 = seq 0 (size d) →
  (foldl freq_incr f (w2i_get_all d lang words).1).*1
  = seq 0 (size (w2i_get_all d lang words).2).
Proof.
  induction words as [|w ws IH]; intros d f lang Hok Hf; simpl; [exact Hf|].
  destruct (w2i_get_ok d (lang +:+ ":" +:+ w) Hok) as (Hok1 & _ & _).
  assert (Hf1 : (freq_incr f (w2i_get d (lang +:+ ":" +:+ w)).1).*1
                = seq 0 (size (w2i_get d (lang +:+ ":" +:+ w)).2)).
  { rewrite freq_incr_keys, Hf. unfold w2i_get.
    destruct (d !! (lang +:+ ":" +:+ w)) as [i|] eqn:E; simpl.
    - rewrite decide_True; [reflexivity|].
      apply elem_of_seq. split; [lia|]. simpl.
      destruct Hok as (Hdense & _). apply Hdense. eauto.
    - rewrite decide_False.
      + rewrite map_size_insert_None by exact E. by rewrite seq_S.
      + rewrite elem_of_seq. lia. }
  destruct (w2i_get d (lang +:+ ":" +:+ w)) as [i d1]. simpl in *.
  specialize (IH d1 (freq_incr f i) lang Hok1 Hf1).
  destruct (w2i_get_all d1 lang ws) as [ids d2]. simpl in *. exact IH.
Qed.

Lemma counted_line c lang line :
  vocab_ok (w2i c) → (freq c).*1 = seq 0 (size (w2i c)) →
  (freq (read_line c lang true line).2).*1
  = seq 0 (size (w2i (read_line c lang true line).2)).
Proof.
  intros Hok Hf. unfold read_line.
  destruct (_ <? _)%Z; simpl; [exact Hf|].
  pose proof (intern_then_count_keys (split line) (w2i c) (freq c) lang Hok Hf) as H.
  destruct (w2i_get_all (w2i c) lang (split line)) as [indices d]. exact H.
Qed.

Lemma counted_lines lines : ∀ c lang,
  vocab_ok (w2i c) → (freq c).*1 = seq 0 (size (w2i c)) →
  (freq (read_lines c lang true lines).2).*1
  = seq 0 (size (w2i (read_lines c lang true lines).2)).
Proof.
  induction lines as [|line rest IH]; intros c lang Hok Hf; simpl; [exact Hf|].
  pose proof (counted_line c lang line Hok Hf) as H1.
  pose proof (read_line_ok c lang true line Hok) as [Hok1 _].
  destruct (read_line c lang true line) as [o c1]. simpl in *.
  specialize (IH c1 lang Hok1 H1).
  destruct (read_lines c1 lang true rest) as [sents c2]. exact IH.
Qed.

Lemma counted_read c lines lang :
  vocab_ok (w2i c) → (freq c).*1 = seq 0 (size (w2i c)) →
  (freq (read c lines lang true).2).*1
  = seq 0 (size (w2i (read c lines lang true).2)).
Proof.
  intros Hok Hf. unfold read.
  pose proof (counted_lines lines c lang Hok Hf) as H1.
  destruct (read_lines c lang true lines) as [sents c1]. exact H1.
Qed.

(** X7.  When every read counts, the frequency table has one entry per id
    of the vocabulary, and its insertion order is the order of the ids:
    its keys are [0, 1, ..., len(w2i) - 1]. *)
Theorem freq_keys_are_the_ids window rs :
  Forall (λ r : list string * string * bool, r.2 = true) rs →
  (freq (reads (Corpus.init window) rs)).*1
  = seq 0 (get_vocabsize (reads (Corpus.init window) rs)).
Proof.
  unfold get_vocabsize.
  assert (H : ∀ c, vocab_ok (w2i c) → (freq c).*1 = seq 0 (size (w2i c)) →
              Forall (λ r : list string * string * bool, r.2 = true) rs →
              (freq (reads c rs)).*1 = seq 0 (size (w2i (reads c rs)))).
  { induction rs as [|[[lines lang] count] rs IH]; intros c Hok Hf Hall; simpl;
      [exact Hf|].
    apply Forall_cons_1 in Hall as [Hc Hall]. simpl in Hc. subst count.
    apply IH; [apply read_ok, Hok|apply counted_read; assumption|exact Hall]. }
  apply H; [apply vocab_ok_init|reflexivity].
Qed.

Lemma freq_keys_are_the_ids_witness :
  let rs := [(["a b c"; "b a"], "en", true); (["x a z w"], "it", true)] in
  Forall (λ r : list string * string * bool, r.2 = true) rs ∧
  (freq (reads (Corpus.init 2) rs)).*1 = seq 0 (get_vocabsize (reads (Corpus.init 2) rs)).
Proof.
  intros rs.
  assert (H : Forall (λ r : list string * string * bool, r.2 = true) rs).
  { repeat constructor. }
  split; [exact H|]. exact (freq_keys_are_the_ids 2 rs H).
Defined.

End Frequencies.

(** * What the batches hold *)

Section BatchRows.

Variables (Pc : list nat → Prop) (Pt : nat → Prop).

Lemma rows_ok_visit window batch_size sent st pos :
  Pc (code_pair window sent pos).1 → Pt (code_pair window sent pos).2 →
  rows_ok Pc Pt st → rows_ok Pc Pt (visit window batch_size sent st pos).
Proof.
  destruct st as [a out]. intros Hc Ht (Hcs & Hts & Hout). simpl in *.
  assert (Hcs' : Forall Pc (contexts a ++ [(code_pair window sent pos).1])).
  { apply Forall_app. split; [exact Hcs|]. by constructor. }
  assert (Hts' : Forall Pt (targets a ++ [(code_pair window sent pos).2])).
  { apply Forall_app. split; [exact Hts|]. by constructor. }
  unfold visit. destruct (batch_size <=? count a + 1).
  - split; [constructor|]. split; [constructor|]. simpl.
    apply Forall_app. split; [exact Hout|]. constructor; [|constructor].
    split; assumption.
  - split; [exact Hcs'|]. split; [exact Hts'|exact Hout].
Qed.

Lemma rows_ok_sentence window batch_size sent st :
  (∀ pos, window ≤ pos → pos + window < length sent →
          Pc (spec_pair window sent pos).1 ∧ Pt (spec_pair window sent pos).2) →
  rows_ok Pc Pt st → rows_ok Pc Pt (scan_sentence window batch_size st sent).
Proof.
  intros Hsent. unfold scan_sentence, range.
  assert (H : ∀ ps, Forall (λ pos, window ≤ pos ∧ pos + window < length sent) ps →
              ∀ st, rows_ok Pc Pt st →
                    rows_ok Pc Pt (foldl (visit window batch_size sent) st ps)).
  { induction 1 as [|pos ps [H1 H2] _ IH]; intros st' Hst; simpl; [exact Hst|].
    apply IH, rows_ok_visit; [| |exact Hst];
      rewrite (code_pair_spec window sent pos H1 H2); apply Hsent; assumption. }
  apply H. apply Forall_forall. intros pos Hpos. apply elem_of_seq in Hpos. lia.
Qed.

Lemma rows_ok_run window batch_size sents :
  Forall (λ sent, ∀ pos, window ≤ pos → pos + window < length sent →
            Pc (spec_pair window sent pos).1 ∧ Pt (spec_pair window sent pos).2) sents →
  rows_ok Pc Pt (generate_batch_run sents window batch_size).
Proof.
  intros Hall. unfold generate_batch_run.
  assert (H : ∀ st, rows_ok Pc Pt st →
              rows_ok Pc Pt (foldl (scan_sentence window batch_size) st sents)).
  { induction Hall as [|sent sents Hs _ IH]; intros st Hst; simpl; [exact Hst|].
    apply IH, rows_ok_sentence; assumption. }
  apply H. split; [constructor|]. split; constructor.
Qed.

End BatchRows.

Section BatchShape.

(** X8.  Every batch yielded holds as many contexts as targets, and every
    context in it has exactly [2 * window] ids: the two tensors built from
    a batch are rectangular. *)
Theorem batches_are_rectangular sents window batch_size :
  Forall (λ b : batch,
            length b.1 = length b.2 ∧
            Forall (λ context, length context = 2 * window) b.1)
         (generate_batch sents window batch_size).
Proof.
  unfold generate_batch.
  destruct (scan_all window batch_size sents _ (accum_ok_start batch_size))
    as [(_ & _ & _ & Hlen) _].
  fold (generate_batch_run sents window batch_size) in Hlen.
  pose proof (rows_ok_run (λ context, length context = 2 * window) (λ _, True)
                window batch_size sents) as (_ & _ & Hrows).
  { apply Forall_forall. intros sent _ pos _ _. split; [|exact I].
    simpl. rewrite length_map, length_app, !length_seq. lia. }
  apply Forall_forall. intros b Hb.
  rewrite Forall_forall in Hlen, Hrows.
  split; [apply (Hlen b Hb)|apply (Hrows b Hb)].
Qed.

(** X9.  Sentences of at most [2 * window] ids have no window position:
    from such sentences alone nothing is yielded and nothing is
    accumulated. *)
Theorem short_sentences_give_no_batch sents window batch_size :
  Forall (λ sent : list nat, length sent ≤ 2 * window) sents →
  generate_batch_run sents window batch_size = (accum_empty, []).
Proof.
  intros Hall. unfold generate_batch_run.
  generalize (accum_empty, ([] : list batch)).
  induction Hall as [|sent sents Hs _ IH]; intros st; simpl; [reflexivity|].
  rewrite <- (IH st) at 2. f_equal. unfold scan_sentence, range.
  replace (length sent - window - window) with 0 by lia. reflexivity.
Qed.

Lemma short_sentences_give_no_batch_witness :
  Forall (λ sent : list nat, length sent ≤ 2 * 2) [[1; 5; 6; 2]; [1; 2]; []] ∧
  generate_batch_run [[1; 5; 6; 2]; [1; 2]; []] 2 1 = (accum_empty, []).
Proof.
  assert (H : Forall (λ sent : list nat, length sent ≤ 2 * 2)
                [[1; 5; 6; 2]; [1; 2]; []]).
  { repeat constructor. }
  split; [exact H|].
  exact (short_sentences_give_no_batch [[1; 5; 6; 2]; [1; 2]; []] 2 1 H).
Defined.

(** X10.  A sentence yielded by the reader always has a window position:
    with the reader's window and batches of one pair, [generate_batch]
    yields one batch for each of its [(number of tokens) + 2 - 2 * window]
    positions, and there is at least one. *)
Theorem accepted_sentence_has_a_window c lang count line sent :
  (Corpus.read_line c lang count line).1 = Some sent →
  let n := length (Corpus.split line) + 2 - 2 * Corpus.window_size c in
  1 ≤ n ∧ length (generate_batch [sent] (Corpus.window_size c) 1) = n.
Proof.
  intros Hsent n.
  assert (Hlen : length sent = length (Corpus.split line) + 2 ∧ 1 ≤ n).
  { revert Hsent. unfold Corpus.read_line.
    destruct (_ <? _)%Z eqn:E; simpl; [discriminate|].
    apply Z.ltb_ge in E.
    pose proof (w2i_get_all_length (Corpus.split line) (Corpus.w2i c) lang) as Hl.
    destruct (Corpus.w2i_get_all (Corpus.w2i c) lang (Corpus.split line))
      as [indices d]. simpl in *.
    intros [= <-]. simpl. rewrite length_app. simpl. unfold n. lia. }
  destruct Hlen as [Hlen Hn]. split; [exact Hn|].
  unfold generate_batch.
  destruct (scan_all (Corpus.window_size c) 1 [sent] _ (accum_ok_start 1))
    as [Hok Hf].
  fold (generate_batch_run [sent] (Corpus.window_size c) 1) in Hok, Hf.
  pose proof (formed_length 1 _ ltac:(lia) Hok) as Hfl.
  rewrite Hf, length_app, spec_pairs_total in Hfl.
  destruct Hok as (_ & _ & Hlt & _). specialize (Hlt ltac:(lia)).
  simpl in Hfl. unfold n. lia.
Qed.

Lemma accepted_sentence_has_a_window_witness :
  (Corpus.read_line (Corpus.init 2) "en" true "a b c").1 = Some [1; 3; 4; 5; 2] ∧
  let n := length (Corpus.split "a b c") + 2
           - 2 * Corpus.window_size (Corpus.init 2) in
  1 ≤ n ∧
  length (generate_batch [[1; 3; 4; 5; 2]] (Corpus.window_size (Corpus.init 2)) 1) = n.
Proof.
  assert (H : (Corpus.read_line (Corpus.init 2) "en" true "a b c").1
              = Some [1; 3; 4; 5; 2]) by (vm_compute; reflexivity).
  split; [exact H|].
  exact (accepted_sentence_has_a_window (Corpus.init 2) "en" true "a b c"
           [1; 3; 4; 5; 2] H).
Defined.

End BatchShape.

(** * When the scores are defined *)

Section Scores.
Import Tensor CBOW.
Local Open Scope nat_scope.

Lemma embedding_is_Some_iff (W : list vec) ids :
  is_Some (embedding W ids) ↔ Forall (λ i, i < length W) ids.
Proof.
  unfold embedding. rewrite mapM_is_Some. apply Forall_iff. intros i. simpl.
  apply lookup_lt_is_Some.
Qed.

Lemma context_row_is_Some_iff model row :
  is_Some (context_row model row)
  ↔ Forall (λ i, i < length (embeddings_x model)) row.
Proof.
  rewrite <- embedding_is_Some_iff. unfold context_row.
  destruct (embedding (embeddings_x model) row); simpl; split; intros [? H];
    first [discriminate H | by eexists].
Qed.

Lemma context_mean_is_Some_iff model X :
  is_Some (context_mean model X)
  ↔ Forall (Forall (λ i, i < length (embeddings_x model))) X.
Proof.
  unfold context_mean. rewrite mapM_is_Some. apply Forall_iff. intros row.
  simpl. apply context_row_is_Some_iff.
Qed.

(** X11.  For as many targets as contexts, [forward] returns the scores
    exactly when every context id is a row of [embeddings_x] and every
    target id a row of [embeddings_y]; otherwise the lookup raises. *)
Theorem forward_returns_iff_ids_valid model X (y : list nat) :
  length y = length X →
  is_Some (forward model X y)
  ↔ Forall (Forall (λ i, i < length (embeddings_x model))) X ∧
    Forall (λ i, i < length (embeddings_y model)) y.
Proof.
  intros Hlen.
  rewrite <- context_mean_is_Some_iff, <- embedding_is_Some_iff.
  unfold forward.
  destruct (context_mean model X) as [context|] eqn:Hc; simpl.
  - destruct (embedding (embeddings_y model) y) as [target|] eqn:Ht; simpl.
    + apply length_mapM in Hc, Ht. unfold broadcast.
      rewrite decide_True by (unfold vec in *; lia). simpl.
      split; [intros _; split; by eexists|intros _; by eexists].
    + split; [intros [? H]; discriminate H|intros [_ [? H]]; discriminate H].
  - split; [intros [? H]; discriminate H|intros [[? H] _]; discriminate H].
Qed.

Lemma forward_returns_iff_ids_valid_witness :
  let model := CBOW.mk 1 [[1%R]; [2%R]] [[1%R]; [2%R]; [3%R]] in
  length [2; 0] = length [[0; 1]; [1; 1]] ∧
  (is_Some (forward model [[0; 1]; [1; 1]] [2; 0])
   ↔ Forall (Forall (λ i, i < length (embeddings_x model))) [[0; 1]; [1; 1]] ∧
     Forall (λ i, i < length (embeddings_y model)) [2; 0]).
Proof.
  intros model.
  assert (H : length [2; 0] = length [[0; 1]; [1; 1]]) by reflexivity.
  split; [exact H|].
  exact (forward_returns_iff_ids_valid model [[0; 1]; [1; 1]] [2; 0] H).
Defined.






End Scores.

(** * From the reader to the scores *)

Section Pipeline.
Import Tensor.
Local Open Scope nat_scope.

Lemma vocab_ok_size (d : gmap string nat) : vocab_ok d → 3 ≤ size d.
Proof.
  intros (Hdense & _ & _ & _ & H2).
  assert (2 < size d); [|lia]. apply Hdense. eauto.
Qed.

Lemma read_lines_ids lines : ∀ c lang count,
  vocab_ok (Corpus.w2i c) → Corpus.BOS c < 3 → Corpus.EOS c < 3 →
  Forall (Forall (λ i, i < size (Corpus.w2i (Corpus.read_lines c lang count lines).2)))
         (Corpus.read_lines c lang count lines).1.
Proof.
  induction lines as [|line rest IH]; intros c lang count Hok HB HE; simpl;
    [constructor|].
  pose proof (read_line_shape c lang count line Hok) as Hs.
  pose proof (read_line_ok c lang count line Hok) as [Hok1 _].
  pose proof (read_line_frame c lang count line) as (_ & HB1 & HE1 & _).
  destruct (Corpus.read_line c lang count line) as [o c1]. simpl in *.
  specialize (IH c1 lang count Hok1 ltac:(lia) ltac:(lia)).
  pose proof (read_lines_frame rest c1 lang count) as (_ & _ & _ & _ & _ & Hmono).
  destruct (Corpus.read_lines c1 lang count rest) as [sents c2]. simpl in *.
  destruct o as [sent|]; [|exact IH].
  constructor; [|exact IH].
  destruct Hs as (indices & -> & _ & Hids & _).
  pose proof (vocab_ok_size _ Hok1) as H3.
  simpl. constructor; [lia|]. apply Forall_app. split.
  - eapply Forall_impl; [exact Hids|]. simpl. intros i Hi. lia.
  - constructor; [lia|constructor].
Qed.

Lemma reads_size rs : ∀ c,
  size (Corpus.w2i c) ≤ size (Corpus.w2i (reads c rs)).
Proof.
  induction rs as [|[[lines lang] count] rs IH]; intros c; simpl; [lia|].
  destruct (read_spec c lines lang count) as (_ & H & _).
  specialize (IH (Corpus.read c lines lang count).2). lia.
Qed.

(** X13.  Every id of every sentence yielded by a read is below the size
    the vocabulary has once all reads are done, whatever is read before
    and after: the sentences only name rows of tables of that size. *)
Theorem sentences_name_ids_of_final_vocabulary window rs lines lang count rs' :
  let r := Corpus.read (reads (Corpus.init window) rs) lines lang count in
  let V := Corpus.get_vocabsize (reads r.2 rs') in
  Forall (Forall (λ i, i < V)) r.1.
Proof.
  intros r V. unfold V, r, Corpus.get_vocabsize, Corpus.read.
  set (c0 := reads (Corpus.init window) rs).
  destruct (reads_ok rs (Corpus.init window) (vocab_ok_init window)) as [Hok _].
  destruct (reads_sentinels rs (Corpus.init window)) as (_ & HB & HE).
  fold c0 in Hok, HB, HE.
  pose proof (read_lines_ids lines c0 lang count Hok) as Hids.
  destruct (init_sentinels window) as (_ & HB0 & HE0).
  rewrite HB, HE, HB0, HE0 in Hids. specialize (Hids ltac:(lia) ltac:(lia)).
  destruct (Corpus.read_lines c0 lang count lines) as [sents c1]. simpl in *.
  pose proof (reads_size rs'
                (Corpus.set_vocab_range c1
                   (<[lang:=(size (Corpus.w2i c0), size (Corpus.w2i c1))]>
                      (Corpus.vocab_range c1)))) as Hmono.
  simpl in Hmono.
  eapply Forall_impl; [exact Hids|]. intros sent Hsent.
  eapply Forall_impl; [exact Hsent|]. simpl. intros i Hi. lia.
Qed.

(** X14.  [generate_batch] puts into its batches only ids of its sentences:
    when these are all below [V] and both tables have at least [V] rows,
    [forward] returns on every batch yielded, one score per pair. *)
Theorem forward_returns_on_every_batch model sents window batch_size V :
  Forall (Forall (λ i, i < V)) sents →
  V ≤ length (CBOW.embeddings_x model) →
  V ≤ length (CBOW.embeddings_y model) →
  Forall (λ b : batch,
            ∃ scores, CBOW.forward model b.1 b.2 = Some scores ∧
                      length scores = length b.2)
         (generate_batch sents window batch_size).
Proof.
  intros Hsents Hx Hy. unfold generate_batch.
  destruct (scan_all window batch_size sents _ (accum_ok_start batch_size))
    as [(_ & _ & _ & Hlen) _].
  fold (generate_batch_run sents window batch_size) in Hlen.
  pose proof (rows_ok_run (Forall (λ i, i < V)) (λ i, i < V)
                window batch_size sents) as (_ & _ & Hrows).
  { eapply Forall_impl; [exact Hsents|]. intros sent Hsent pos H1 H2.
    rewrite Forall_forall in Hsent.
    assert (Hnth : ∀ i, i < length sent → nth i sent 0 < V).
    { intros i Hi. apply Hsent. rewrite nth_lookup.
      destruct (lookup_lt_is_Some_2 sent i Hi) as [x Hx']. rewrite Hx'. simpl.
      eapply list_elem_of_lookup_2. exact Hx'. }
    split; simpl; [|apply Hnth; lia].
    apply Forall_forall. intros x Hx'. apply list_elem_of_fmap in Hx' as (i & -> & Hi).
    apply Hnth. apply elem_of_app in Hi as [Hi|Hi]; apply elem_of_seq in Hi; lia. }
  rewrite Forall_forall in Hlen, Hrows. apply Forall_forall. intros b Hb.
  destruct (Hlen b Hb) as [Hl _]. destruct (Hrows b Hb) as [Hc Ht].
  assert (HX : Forall (Forall (λ i, i < length (CBOW.embeddings_x model))) b.1).
  { eapply Forall_impl; [exact Hc|]. intros row Hrow.
    eapply Forall_impl; [exact Hrow|]. simpl. intros i Hi. lia. }
  assert (HY : Forall (λ i, i < length (CBOW.embeddings_y model)) b.2).
  { eapply Forall_impl; [exact Ht|]. simpl. intros i Hi. lia. }
  unfold CBOW.forward.
  destruct (context_mean_is_Some model b.1 HX) as [context Hcm]. rewrite Hcm. cbn.
  destruct (embedding_is_Some _ _ HY) as [target Htg]. rewrite Htg. cbn.
  apply length_mapM in Hcm, Htg.
  unfold CBOW.broadcast. rewrite decide_True by (unfold vec in *; lia). cbn.
  eexists. split; [reflexivity|].
  rewrite length_map, length_zip. unfold vec in *. lia.
Qed.

Lemma forward_returns_on_every_batch_witness :
  let model := CBOW.mk 1 [[1%R]; [2%R]; [3%R]; [4%R]; [5%R]]
                         [[1%R]; [2%R]; [3%R]; [4%R]; [5%R]] in
  let sents := [[1; 3; 4; 2]; [1; 4; 2]] in
  Forall (Forall (λ i, i < 5)) sents ∧
  5 ≤ length (CBOW.embeddings_x model) ∧
  5 ≤ length (CBOW.embeddings_y model) ∧
  Forall (λ b : batch,
            ∃ scores, CBOW.forward model b.1 b.2 = Some scores ∧
                      length scores = length b.2)
         (generate_batch sents 1 2).
Proof.
  intros model sents.
  assert (H1 : Forall (Forall (λ i, i < 5)) sents).
  { repeat constructor. }
  assert (H2 : 5 ≤ length (CBOW.embeddings_x model)) by (simpl; lia).
  assert (H3 : 5 ≤ length (CBOW.embeddings_y model)) by (simpl; lia).
  split; [exact H1|]. split; [exact H2|]. split; [exact H3|].
  exact (forward_returns_on_every_batch model sents 1 2 5 H1 H2 H3).
Defined.

End Pipeline.

(** * The prior as a distribution, and the shape of the negatives *)

Section Sampling.
Import Tensor NegativeSamplingLoss.

(** X15.  [calc_prior] fails exactly when one of the two languages has no
    recorded range (the [KeyError] of [ranges[src]] or [ranges[trg]]). *)
Theorem calc_prior_fails_iff_range_missing freq ranges src trg :
  calc_prior freq ranges src trg = None
  ↔ ranges !! src = None ∨ ranges !! trg = None.
Proof.
  unfold calc_prior.
  destruct (ranges !! src) as [r1|]; cbn.
  - destruct (ranges !! trg) as [r2|]; cbn.
    + split; [discriminate|]. intros [H|H]; discriminate H.
    + split; [right; reflexivity|reflexivity].
  - split; [left; reflexivity|reflexivity].
Qed.

Open Scope R_scope.

Lemma vsum_vdiv (a : vec) k : vsum (vdiv a k) = vsum a / k.
Proof.
  induction a as [|x a IH]; cbn.
  - unfold Rdiv. by rewrite Rmult_0_l.
  - fold (vdiv a k). fold (vsum (vdiv a k)). fold (vsum a). rewrite IH.
    unfold Rdiv. by rewrite Rmult_plus_distr_r.
Qed.

Lemma pow075_nonneg x : 0 <= pow075 x.
Proof.
  unfold pow075. destruct (Rle_dec x 0); [lra|].
  unfold Rpower. left. apply exp_pos.
Qed.

Lemma vsum_nonneg (a : vec) : Forall (λ x, 0 <= x) a → 0 <= vsum a.
Proof.
  induction 1 as [|x a Hx _ IH]; cbn; [lra|]. fold (vsum a). lra.
Qed.

Lemma normalised (a : vec) :
  Forall (λ x, 0 <= x) a → vsum a ≠ 0 →
  vsum (vdiv a (vsum a)) = 1 ∧ Forall (λ x, 0 <= x) (vdiv a (vsum a)).
Proof.
  intros Ha Hs. split.
  - rewrite vsum_vdiv. unfold Rdiv. by apply Rinv_r.
  - pose proof (vsum_nonneg a Ha) as H0.
    assert (Hinv : 0 < / vsum a) by (apply Rinv_0_lt_compat; lra).
    unfold vdiv. apply Forall_fmap. eapply Forall_impl; [exact Ha|].
    simpl. intros x Hx. unfold Rdiv. nra.
Qed.

(** X16.  When [calc_prior] returns and each of the two slices of the
    smoothed table has a non-zero sum, [p_src] and [p_trg] are
    distributions: their entries are not negative and each sums to 1. *)
Theorem priors_are_distributions freq ranges src trg p p_src p_trg off r1 r2 :
  calc_prior freq ranges src trg = Some (p, p_src, p_trg, off) →
  ranges !! src = Some r1 → ranges !! trg = Some r2 →
  vsum (take r1.2 p) ≠ 0 → vsum (drop r2.1 p) ≠ 0 →
  (vsum p_src = 1 ∧ Forall (λ x, 0 <= x) p_src) ∧
  (vsum p_trg = 1 ∧ Forall (λ x, 0 <= x) p_trg).
Proof.
  unfold calc_prior. intros H H1 H2. rewrite H1, H2 in H. cbn in H.
  injection H as <- <- <- <-.
  set (p := map pow075 (map (λ iv : nat * nat, INR iv.2) (sorted_by_snd freq))).
  assert (Hp : Forall (λ x, 0 <= x) p).
  { unfold p. apply Forall_fmap, Forall_true. intros x. apply pow075_nonneg. }
  intros Hs1 Hs2. split; apply normalised; try assumption.
  - by apply Forall_take.
  - by apply Forall_drop.
Qed.

Lemma priors_are_distributions_witness :
  let c := Main.corpus_example in
  let w := pow075 (1 + 1) in
  let p := [0; 0; 0; 1; 1; 1; w] in
  let p_src := vdiv [0; 0; 0; 1; 1] (vsum [0; 0; 0; 1; 1]) in
  let p_trg := vdiv [1; w] (vsum [1; w]) in
  calc_prior (Corpus.freq c) (Corpus.vocab_range c) "en" "it"
    = Some (p, p_src, p_trg, 5%nat) ∧
  Corpus.vocab_range c !! "en" = Some (3, 5)%nat ∧
  Corpus.vocab_range c !! "it" = Some (5, 7)%nat ∧
  vsum (take 5 p) ≠ 0 ∧ vsum (drop 5 p) ≠ 0 ∧
  (vsum p_src = 1 ∧ Forall (λ x, 0 <= x) p_src) ∧
  (vsum p_trg = 1 ∧ Forall (λ x, 0 <= x) p_trg).
Proof.
  intros c w p p_src p_trg.
  pose proof calc_prior_example as H0.
  destruct corpus_example_ranges as [H1 H2].
  pose proof pow075_2 as Hw. fold w in Hw.
  assert (H3 : vsum (take (3, 5)%nat.2 p) ≠ 0) by (cbn; lra).
  assert (H4 : vsum (drop (5, 7)%nat.1 p) ≠ 0) by (cbn; lra).
  split; [exact H0|]. split; [exact H1|]. split; [exact H2|].
  split; [exact H3|]. split; [exact H4|].
  exact (priors_are_distributions _ _ _ _ _ _ _ _ _ _ H0 H1 H2 H3 H4).
Defined.

Lemma multinomial_bound (w : vec) n out :
  multinomial w n out → Forall (λ i, (i < length w)%nat) out.
Proof.
  intros [_ H]. eapply Forall_impl; [exact H|].
  simpl. intros i (x & Hx & _). eapply lookup_lt_Some. exact Hx.
Qed.

(** X18.  What the two draws can return, for a sampler built by
    [__init__] from a table [freq]: an index drawn from [p_src] is below
    the end of the source range and below [len(freq)]; an index [j] drawn
    from [p_trg] counts from the start of the target range, that is
    [start + j] is below [len(freq)].  For a source batch the first kind
    are the same-language negatives and the second kind the cross-language
    ones, for a target batch the other way round. *)
Theorem negatives_index_their_slice freq ranges src trg n self r1 r2
    B is_src mono cross :
  init freq ranges src trg n = Some self →
  ranges !! src = Some r1 → ranges !! trg = Some r2 →
  draws self B is_src mono cross →
  let from_src := if is_src then mono else cross in
  let from_trg := if is_src then cross else mono in
  Forall (λ i, (i < r1.2 ∧ i < length freq)%nat) from_src ∧
  Forall (λ j, (r2.1 + j < length freq)%nat) from_trg.
Proof.
  unfold init, calc_prior. intros H H1 H2. rewrite H1, H2 in H. cbn in H.
  injection H as <-. unfold draws. cbn [p_src p_trg sample_size].
  set (p := map pow075 (map (λ iv : nat * nat, INR iv.2) (sorted_by_snd freq))).
  assert (Hlen : length p = length freq).
  { unfold p. rewrite !length_map. apply Permutation_length, sorted_by_snd_perm. }
  assert (Hsrc : ∀ k out, multinomial (vdiv (take r1.2 p) (vsum (take r1.2 p))) k out →
                 Forall (λ i, (i < r1.2 ∧ i < length freq)%nat) out).
  { intros k out Hm. apply multinomial_bound in Hm.
    eapply Forall_impl; [exact Hm|]. simpl. intros i Hi.
    unfold vdiv in Hi. rewrite length_map, length_take in Hi. lia. }
  assert (Htrg : ∀ k out, multinomial (vdiv (drop r2.1 p) (vsum (drop r2.1 p))) k out →
                 Forall (λ j, (r2.1 + j < length freq)%nat) out).
  { intros k out Hm. apply multinomial_bound in Hm.
    eapply Forall_impl; [exact Hm|]. simpl. intros i Hi.
    unfold vdiv in Hi. rewrite length_map, length_drop in Hi. lia. }
  destruct is_src; intros [Hm Hc]; split; eauto.
Qed.

Lemma negatives_index_their_slice_witness :
  let c := Main.corpus_example in
  ∃ self,
    init (Corpus.freq c) (Corpus.vocab_range c) "en" "it" 2 = Some self ∧
    Corpus.vocab_range c !! "en" = Some (3, 5)%nat ∧
    Corpus.vocab_range c !! "it" = Some (5, 7)%nat ∧
    draws self 1 false [0; 1]%nat [3; 4]%nat ∧
    Forall (λ i, (i < 5 ∧ i < length (Corpus.freq c))%nat) [3; 4]%nat ∧
    Forall (λ j, (5 + j < length (Corpus.freq c))%nat) [0; 1]%nat.
Proof.
  intros c.
  assert (H0 : init (Corpus.freq c) (Corpus.vocab_range c) "en" "it" 2
               = Some (mk [0; 0; 0; 1; 1; 1; pow075 (1 + 1)]
                          (vdiv [0; 0; 0; 1; 1] (vsum [0; 0; 0; 1; 1]))
                          (vdiv [1; pow075 (1 + 1)] (vsum [1; pow075 (1 + 1)]))
                          5 2)).
  { unfold init, c. rewrite calc_prior_example. reflexivity. }
  destruct corpus_example_ranges as [H1 H2].
  pose proof pow075_2 as Hw.
  assert (Hpos : 0 < / (1 + (pow075 (1 + 1) + 0))).
  { apply Rinv_0_lt_compat. lra. }
  assert (H3 : draws (mk [0; 0; 0; 1; 1; 1; pow075 (1 + 1)]
                          (vdiv [0; 0; 0; 1; 1] (vsum [0; 0; 0; 1; 1]))
                          (vdiv [1; pow075 (1 + 1)] (vsum [1; pow075 (1 + 1)]))
                          5 2) 1 false [0; 1]%nat [3; 4]%nat).
  { unfold draws. cbn. split; (split; [reflexivity|]).
    - repeat constructor; eexists; (split; [reflexivity|]); unfold Rdiv; nra.
    - repeat constructor; eexists; (split; [reflexivity|]); lra. }
  eexists. split; [exact H0|]. split; [exact H1|]. split; [exact H2|].
  split; [exact H3|].
  exact (negatives_index_their_slice _ _ _ _ _ _ _ _ 1 false _ _ H0 H1 H2 H3).
Defined.

Close Scope R_scope.

Lemma chunks_spec {A} k n : ∀ l : list A,
  length l = n * k →
  length (chunks k n l) = n ∧
  Forall (λ r, length r = k) (chunks k n l) ∧
  concat (chunks k n l) = l.
Proof.
  induction n as [|n IH]; intros l Hl; simpl.
  - split; [reflexivity|]. split; [constructor|].
    symmetry. by apply nil_length_inv.
  - destruct (IH (drop k l)) as (H1 & H2 & H3).
    { rewrite length_drop. simpl in Hl. lia. }
    split; [by rewrite H1|]. split.
    + constructor; [|exact H2]. rewrite length_take. simpl in Hl. lia.
    + rewrite H3. apply take_drop.
Qed.

Lemma cat_rows {A} S (R1 R2 : list (list A)) :
  length R1 = length R2 →
  Forall (λ r, length r = S) R1 → Forall (λ r, length r = S) R2 →
  length (zip_with app R1 R2) = length R1 ∧
  Forall (λ r, length r = 2 * S) (zip_with app R1 R2) ∧
  map (take S) (zip_with app R1 R2) = R1 ∧
  map (drop S) (zip_with app R1 R2) = R2.
Proof.
  intros Hlen H1. revert R2 Hlen.
  induction H1 as [|r1 R1 Hr1 _ IH]; intros [|r2 R2] Hlen H2;
    simpl in Hlen; try discriminate.
  - repeat split; constructor.
  - apply Forall_cons_1 in H2 as [Hr2 H2].
    destruct (IH R2 ltac:(lia) H2) as (I1 & I2 & I3 & I4). simpl.
    split; [by rewrite I1|]. split; [|split].
    + constructor; [|exact I2]. rewrite length_app. lia.
    + rewrite I3. f_equal. by apply take_app_length'.
    + rewrite I4. f_equal. by apply drop_app_length'.
Qed.

(** X17.  For a batch of [B >= 1] examples and two draws of [B * S]
    negatives, the tensor handed to [forward_neg] has [B] rows of [2 * S]
    ids; the first [S] ids of the rows, read row after row, are the
    same-language draw and the last [S] the cross-language draw: no
    negative is lost, repeated or moved to another side. *)
Theorem targets_neg_layout B S (mono cross : list nat) :
  1 ≤ B → length mono = B * S → length cross = B * S →
  let tn := targets_neg B mono cross in
  length tn = B ∧
  Forall (λ r, length r = 2 * S) tn ∧
  concat (map (take S) tn) = mono ∧
  concat (map (drop S) tn) = cross.
Proof.
  intros HB Hm Hc tn. unfold tn, targets_neg, view_rows.
  assert (Hdiv : (B * S) / B = S).
  { rewrite Nat.mul_comm. apply Nat.div_mul. lia. }
  rewrite Hm, Hc, Hdiv.
  destruct (chunks_spec S B mono Hm) as (M1 & M2 & M3).
  destruct (chunks_spec S B cross Hc) as (C1 & C2 & C3).
  destruct (cat_rows S (chunks S B mono) (chunks S B cross)
              ltac:(lia) M2 C2) as (I1 & I2 & I3 & I4).
  split; [lia|]. split; [exact I2|].
  split; [by rewrite I3|by rewrite I4].
Qed.

Lemma targets_neg_layout_witness :
  1 ≤ 2 ∧ length [3; 4; 3; 4; 3; 3] = 2 * 3 ∧ length [0; 1; 0; 1; 1; 1] = 2 * 3 ∧
  let tn := targets_neg 2 [3; 4; 3; 4; 3; 3] [0; 1; 0; 1; 1; 1] in
  length tn = 2 ∧
  Forall (λ r, length r = 2 * 3) tn ∧
  concat (map (take 3) tn) = [3; 4; 3; 4; 3; 3] ∧
  concat (map (drop 3) tn) = [0; 1; 0; 1; 1; 1].
Proof.
  assert (H1 : 1 ≤ 2) by lia.
  assert (H2 : length [3; 4; 3; 4; 3; 3] = 2 * 3) by reflexivity.
  assert (H3 : length [0; 1; 0; 1; 1; 1] = 2 * 3) by reflexivity.
  split; [exact H1|]. split; [exact H2|]. split; [exact H3|].
  exact (targets_neg_layout 2 3 [3; 4; 3; 4; 3; 3] [0; 1; 0; 1; 1; 1] H1 H2 H3).
Defined.

End Sampling.

(** * The estimator over a run *)

Section Estimator.
Import Tensor DistributionLoss.

(** X19.  [update_stats] for one language leaves the mean, the covariance,
    the count and the flag of the other language as they were. *)
Theorem update_stats_other_language_untouched self model x l self' l' :
  update_stats self model x l = Some self' →
  l' ≠ l →
  m self' l' = m self l' ∧ v self' l' = v self l' ∧
  scount self' l' = scount self l' ∧ updated self' l' = updated self l'.
Proof.
  rewrite update_stats_eq.
  destruct (CBOW.embedding _ x) as [rows|]; [|discriminate]. cbn.
  intros [= <-] Hne. cbn. rewrite !upd_other by exact Hne.
  repeat split.
Qed.

Lemma update_stats_other_language_untouched_witness :
  let model := CBOW.mk 2 [[1; 0]; [0; 1]]%R [[1; 0]; [0; 1]]%R in
  let self := init 2 (1 / 5) (1 / 10) in
  ∃ self',
    update_stats self model [0; 1]%nat src = Some self' ∧
    trg ≠ src ∧
    m self' trg = m self trg ∧ v self' trg = v self trg ∧
    scount self' trg = scount self trg ∧ updated self' trg = updated self trg.
Proof.
  intros model self. eexists.
  assert (Hne : trg ≠ src) by discriminate.
  split; [reflexivity|]. split; [exact Hne|].
  exact (update_stats_other_language_untouched self model [0; 1]%nat src _ trg
           eq_refl Hne).
Defined.

Lemma call_scount self model x is_src self' r l :
  call self model x is_src = Some (self', r) →
  scount self' l
  = (if decide ((if is_src then src else trg) = l)
     then Z.min 100000 (scount self l + Z.of_nat (length x))
     else scount self l).
Proof.
  unfold call. rewrite update_stats_eq.
  destruct (CBOW.embedding _ x) as [rows|]; [|discriminate]. cbn.
  intros H.
  assert (scount self' = upd (scount self) (if is_src then src else trg)
            (Z.min 100000 (scount self (if is_src then src else trg)
                           + Z.of_nat (length x)))) as ->.
  { destruct (negb _); injection H as <- _; reflexivity. }
  destruct (decide ((if is_src then src else trg) = l)) as [<-|Hne].
  - apply upd_same.
  - apply upd_other. congruence.
Qed.

Lemma windows_total_nonneg l cs : (0 ≤ windows_total l cs)%Z.
Proof.
  induction cs as [|[[model x] is_src] cs IH]; [reflexivity|].
  change (0 ≤ (if decide ((if is_src then src else trg) = l)
               then Z.of_nat (length x) else 0) + windows_total l cs)%Z.
  destruct (decide _); lia.
Qed.

Lemma calls_scount cs : ∀ self self' rs l,
  (0 ≤ scount self l ≤ 100000)%Z →
  calls self cs = Some (self', rs) →
  scount self' l = Z.min 100000 (scount self l + windows_total l cs).
Proof.
  induction cs as [|[[model x] is_src] cs IH]; intros self self' rs l H0.
  - cbn. intros [= <- <-]. lia.
  - cbn [calls].
    destruct (call self model x is_src) as [[s1 r]|] eqn:E1; [|discriminate]. cbn.
    destruct (calls s1 cs) as [[s2 rs2]|] eqn:E2; [|discriminate]. cbn.
    intros [= <- <-].
    pose proof (call_scount _ _ _ _ _ _ l E1) as H1.
    pose proof (windows_total_nonneg l cs) as Hw.
    change (windows_total l ((model, x, is_src) :: cs))
      with ((if decide ((if is_src then src else trg) = l)
             then Z.of_nat (length x) else 0) + windows_total l cs)%Z.
    destruct (decide ((if is_src then src else trg) = l)).
    + rewrite (IH s1 s2 rs2 l ltac:(lia) E2), H1. lia.
    + rewrite (IH s1 s2 rs2 l ltac:(lia) E2), H1. lia.
Qed.

(** X20.  After any run of calls on a fresh [DistributionLoss], the count
    of a language is the number of ids in the windows given for that
    language, capped at 100000; in particular it never exceeds 100000. *)
Theorem scount_is_capped_total dim_emb lam_m lam_v cs self rs l :
  calls (init dim_emb lam_m lam_v) cs = Some (self, rs) →
  scount self l = Z.min 100000 (windows_total l cs) ∧
  (0 ≤ scount self l ≤ 100000)%Z.
Proof.
  intros H.
  pose proof (windows_total_nonneg l cs) as Hw.
  assert (H0 : (0 ≤ scount (init dim_emb lam_m lam_v) l ≤ 100000)%Z).
  { change (0 ≤ 0 ≤ 100000)%Z. lia. }
  pose proof (calls_scount cs _ _ _ l H0 H) as H1.
  change (scount (init dim_emb lam_m lam_v) l) with 0%Z in H1. lia.
Qed.

Lemma scount_is_capped_total_witness :
  let model := CBOW.mk 2 [[1; 0]; [0; 1]]%R [[1; 0]; [0; 1]]%R in
  let cs := [(model, [0; 1]%nat, true); (model, [1; 1]%nat, false);
             (model, [0; 0]%nat, true)] in
  ∃ self rs,
    calls (init 2 (1 / 5) (1 / 10)) cs = Some (self, rs) ∧
    scount self src = Z.min 100000 (windows_total src cs) ∧
    (0 ≤ scount self src ≤ 100000)%Z.
Proof.
  intros model cs. eexists _, _. split; [reflexivity|].
  exact (scount_is_capped_total 2 (1 / 5) (1 / 10) cs _ _ src eq_refl).
Defined.

Open Scope R_scope.


Lemma sum_rows_length_le d (rows : list vec) : (length (sum_rows d rows) ≤ d)%nat.
Proof.
  unfold sum_rows. induction rows as [|r rows IH]; simpl.
  - unfold zeros. rewrite length_replicate. lia.
  - unfold vadd at 1. rewrite length_zip_with. lia.
Qed.

Lemma vadd_zero_scaled (a : vec) d :
  (length a ≤ d)%nat → vadd a (vscale (IZR 0) (zeros d)) = a.
Proof.
  revert d. induction a as [|x a IH]; intros [|d] Hd; simpl in Hd; try lia;
    [reflexivity..|].
  cbn. f_equal; [lra|]. apply IH. lia.
Qed.

(** X21.  The first update of a language (count 0, mean still the zero
    vector) stores exactly the mean and the covariance of the recurrence
    in the words of the spec: with nothing added to it, the aggregate
    vector is still intact when the deviation is taken. *)
Theorem first_update_follows_recurrence self model x l self' :
  scount self l = 0%Z →
  m self l = zeros (CBOW.dim_emb model) →
  update_stats self model x l = Some self' →
  ∃ rows,
    CBOW.embedding (CBOW.embeddings_x model) x = Some rows ∧
    let agg := sum_rows (CBOW.dim_emb model) rows in
    let N := Z.of_nat (length x) in
    m self' l = spec_mean agg 0 N (m self l) ∧
    v self' l = spec_cov agg 0 N (m self l) (v self l).
Proof.
  intros Hc Hm. rewrite update_stats_eq.
  destruct (CBOW.embedding _ x) as [rows|]; [|discriminate]. cbn.
  intros [= <-]. exists rows. split; [reflexivity|]. cbn.
  rewrite !upd_same, Hc, Hm.
  unfold spec_cov, spec_mean.
  rewrite (vadd_zero_scaled _ _ (sum_rows_length_le _ rows)).
  split; reflexivity.
Qed.

Lemma first_update_follows_recurrence_witness :
  let model := CBOW.mk 2 [[1; 0]; [0; 1]] [[1; 0]; [0; 1]] in
  let self := init 2 (1 / 5) (1 / 10) in
  ∃ self',
    scount self trg = 0%Z ∧
    m self trg = zeros (CBOW.dim_emb model) ∧
    update_stats self model [0; 1]%nat trg = Some self' ∧
    ∃ rows,
      CBOW.embedding (CBOW.embeddings_x model) [0; 1]%nat = Some rows ∧
      let agg := sum_rows (CBOW.dim_emb model) rows in
      let N := Z.of_nat (length [0; 1]%nat) in
      m self' trg = spec_mean agg 0 N (m self trg) ∧
      v self' trg = spec_cov agg 0 N (m self trg) (v self trg).
Proof.
  intros model self. eexists.
  assert (H1 : scount self trg = 0%Z) by reflexivity.
  assert (H2 : m self trg = zeros (CBOW.dim_emb model)) by reflexivity.
  split; [exact H1|]. split; [exact H2|]. split; [reflexivity|].
  exact (first_update_follows_recurrence self model [0; 1]%nat trg _ H1 H2 eq_refl).
Defined.

Close Scope R_scope.








End Estimator.

(** * The file written by main *)

Section Output.
Import Tensor Main.
Local Open Scope nat_scope.

Variable np_seed : Z → N.
Variable cuda_manual_seed : Z → N.
Variable normal_ : N → nat → nat → list vec * N.
Variable epoch : args → run → run.
Variable cuda_is_available : bool.




End Output.

